(** * navigation-router: a shallow embedding of [src/index.js]

    The module is one class, [NavigationRouter], bound to two platform
    facilities (the Navigation API and [URLPattern]).  [src/index.js] holds
    two copies of the class; they differ in the property the navigate
    listener reads for downloads and in the [options] carried by a
    [RouterEvent].  The embedding is parameterised by the copy ([Copy]).

    Conventions.
    - The private fields ([#staticRoutes], [#dynamicRoutes],
      [#resolveRouteChange]) are the fields of the record [Router].  A
      method is a computation in the monad [M], which threads the router,
      collects the calls made to the outside ([Effect]: events dispatched,
      resolver and handler calls, [event.intercept]) and propagates
      exceptions.
    - Functions handed to the router (route handlers, promise resolvers) are
      opaque identities: a call is recorded, the body is not run.  Listeners
      registered with [on] are the observers of [DispatchEvent]; in the
      world neither they nor the handlers call back into the router while a
      method runs.  [intercept_body] is the closure over any listeners and
      handler, which may.
    - The platform ([URLPattern], [URL], [location]) is an interface,
      [Platform]; a compiled pattern is an object with its [test] and [exec]
      methods.  [Browser] is a small instance used to run examples.
    - The async iterator is the state machine of its generator object, run
      in a [World] that also holds the host's pending callbacks and the
      microtask queue.

    Layout: data, the monad, the methods, the iterator and the world, the
    example platform, then the properties. *)

From Stdlib Require Import String Ascii Bool List.
From stdpp Require Import base option list gmap strings fin_maps.
Import ListNotations.

Local Open Scope string_scope.
Local Open Scope list_scope.

(** ** JavaScript values read by the code *)

Inductive JSValue : Type :=
| JUndefined
| JNull
| JBool (b : bool)
| JString (s : string).

(** ToBoolean, on the values above. *)
Definition truthy (v : JSValue) : bool :=
  match v with
  | JUndefined | JNull => false
  | JBool b => b
  | JString s => negb (String.eqb s "")
  end.

Inductive JSError : Type :=
| TypeError (msg : string)
| Error (msg : string).

Inductive Completion (A : Type) : Type :=
| Normal (a : A)
| Throw (e : JSError).
Arguments Normal {A} a.
Arguments Throw {A} e.

(** [String.prototype.includes]. *)
Fixpoint includes (s sub : string) : bool :=
  if String.prefix sub s then true
  else match s with
       | EmptyString => false
       | String _ s' => includes s' sub
       end.

(** ** Platform objects *)

Record URL : Type := mkURL {
  href : string;
  protocol : string;
  host : string;
  pathname : string;
  search : string;
  hash : string
}.

Abbreviation Groups := (gmap string (option string)).

Record URLPatternComponentResult : Type := {
  input : string;
  groups : Groups
}.

(** Only the [pathname] component of a [URLPatternResult] is read. *)
Record URLPatternResult : Type := {
  res_pathname : URLPatternComponentResult
}.

(** A compiled pattern is an object with the two methods the router calls. *)
Record URLPattern : Type := {
  test : URL -> bool;
  exec : URL -> option URLPatternResult
}.

Class Platform : Type := {
  (** [new URLPattern({ pathname })] *)
  URLPattern_new : string -> Completion URLPattern;
  (** [new URL(s)] *)
  URL_new : string -> Completion URL;
  (** [location.host] *)
  location_host : string
}.

(** The host's navigation intent.  [destination_url] is
    [event.destination.url]. *)
Record NavigateEvent : Type := {
  canIntercept : JSValue;
  hashChange : JSValue;
  downloadRequest : JSValue;
  destination_url : string
}.

(** Property read [event[name]]: a name the object does not have reads as
    [undefined]. *)
Definition prop (event : NavigateEvent) (name : string) : JSValue :=
  if String.eqb name "canIntercept" then canIntercept event
  else if String.eqb name "hashChange" then hashChange event
  else if String.eqb name "downloadRequest" then downloadRequest event
  else JUndefined.

(** ** Router data *)

(** Functions are compared by identity. *)
Inductive Handler : Type := Fn (id : nat).
Inductive Resolver : Type := ResolveOf (promise : nat).

Record DynamicRoute : Type := {
  route : string;
  pattern : URLPattern;
  handler : Handler
}.

Record Router : Type := mkRouter {
  staticRoutes : gmap string Handler;
  dynamicRoutes : list DynamicRoute;
  resolveRouteChange : option Resolver
}.

Definition new_router : Router :=
  {| staticRoutes := ∅; dynamicRoutes := []; resolveRouteChange := None |}.

(** What [#getRoute] returns: [{ handler }] or [{ match, handler }].  An
    absent [match] and a [null] one are both [None]. *)
Record MatchedRoute : Type := {
  mr_match : option URLPatternResult;
  mr_handler : Handler
}.

(** The record handed to handlers and listeners; [params] is [None] when it
    is [undefined]. *)
Record Route : Type := {
  params : option Groups;
  url : URL
}.

Record IterResult : Type := {
  value : Route;
  done : bool
}.

Inductive Detail : Type :=
| DetailURL (u : URL)
| DetailRoute (r : Route).

(** [options] is [None] where the event has no such property (first copy)
    and the list of own properties of the object otherwise. *)
Record RouterEvent : Type := {
  name : string;
  detail : Detail;
  options : option (list (string * JSValue))
}.

(** The closure passed as [handler] to [event.intercept], by the variables it
    captures. *)
Record Deferred : Type := {
  d_route : Route;
  d_handler : Handler
}.

(** The calls a method makes to the outside: [this.dispatchEvent (e)],
    [resolve (x)] on a stored resolver, [handler (route)], and
    [event.intercept ({ handler })]. *)
Inductive Effect : Type :=
| DispatchEvent (e : RouterEvent)
| CallResolver (r : Resolver) (x : IterResult)
| CallHandler (h : Handler) (r : Route)
| Intercept (event : NavigateEvent) (d : Deferred).

(** The two copies of the class in [src/index.js], in file order. *)
Inductive Copy : Type := Copy1 | Copy2.

(** ** The method monad *)

Definition M (A : Type) : Type :=
  Router -> Completion A * Router * list Effect.

Definition ret {A} (a : A) : M A := fun this => (Normal a, this, []).

Definition bind {A B} (m : M A) (k : A -> M B) : M B :=
  fun this =>
    match m this with
    | (Normal a, this', out) =>
        match k a this' with
        | (c, this'', out') => (c, this'', out ++ out')
        end
    | (Throw e, this', out) => (Throw e, this', out)
    end.

Definition get : M Router := fun this => (Normal this, this, []).
Definition put (r : Router) : M unit := fun _ => (Normal tt, r, []).
Definition perform (e : Effect) : M unit := fun this => (Normal tt, this, [e]).
Definition lift {A} (c : Completion A) : M A := fun this => (c, this, []).

Declare Scope js_scope.
Delimit Scope js_scope with js.
Notation "'let*' x ':=' m 'in' k" := (bind m (fun x => k))
  (at level 10, x name, m at level 100, k at level 200) : js_scope.
Notation "m ';;' k" := (bind m (fun _ => k))
  (at level 100, k at level 200, right associativity) : js_scope.

Definition completion {A} (r : Completion A * Router * list Effect) := fst (fst r).
Definition final {A} (r : Completion A * Router * list Effect) := snd (fst r).
Definition effects {A} (r : Completion A * Router * list Effect) := snd r.

Local Open Scope js_scope.

Definition set_staticRoutes (m : gmap string Handler) : M unit :=
  let* this := get in
  put {| staticRoutes := m;
         dynamicRoutes := dynamicRoutes this;
         resolveRouteChange := resolveRouteChange this |}.

Definition set_dynamicRoutes (l : list DynamicRoute) : M unit :=
  let* this := get in
  put {| staticRoutes := staticRoutes this;
         dynamicRoutes := l;
         resolveRouteChange := resolveRouteChange this |}.

Definition set_resolveRouteChange (r : option Resolver) : M unit :=
  let* this := get in
  put {| staticRoutes := staticRoutes this;
         dynamicRoutes := dynamicRoutes this;
         resolveRouteChange := r |}.

(** ** RouterEvent and the event channel *)

(** [RouterEvent.make (name, data)] in the first copy;
    [RouterEvent.make (name, data, options)] with [options = {}] from
    [emit]'s default in the second. *)
Definition RouterEvent_make (c : Copy) (name : string) (data : Detail) : RouterEvent :=
  {| name := name;
     detail := data;
     options := match c with Copy1 => None | Copy2 => Some [] end |}.

(** [this.dispatchEvent (event)]: the call is recorded and the listeners
    registered for the event run at once, on the router as it is; what a
    listener throws is reported by the platform, not thrown to the caller. *)
Definition dispatchEvent (listeners : RouterEvent -> M unit) (event : RouterEvent) :
    M unit :=
  fun this =>
    match listeners event this with
    | (_, this', out) => (Normal tt, this', DispatchEvent event :: out)
    end.

(** [emit (name, data)], over the listeners that are registered. *)
Definition emit_with (listeners : RouterEvent -> M unit) (c : Copy) (name : string)
    (data : Detail) : M unit :=
  let event := RouterEvent_make c name data in
  dispatchEvent listeners event.

(** [emit (name, data)] with listeners that leave the router alone. *)
Definition emit (c : Copy) (name : string) (data : Detail) : M unit :=
  emit_with (fun _ => ret tt) c name data.

(** ** Route table *)

(** [add (route, handler)] *)
Definition add `{Platform} (route : string) (handler : Handler) : M unit :=
  if includes route ":" then
    let* pattern := lift (URLPattern_new route) in
    let* this := get in
    set_dynamicRoutes
      (dynamicRoutes this ++
         [{| route := route; pattern := pattern; handler := handler |}])
  else
    let* this := get in
    set_staticRoutes (<[route := handler]> (staticRoutes this)).

(** The [for ... of] loop of [#getRoute]. *)
Fixpoint scan (routes : list DynamicRoute) (url : URL) : option MatchedRoute :=
  match routes with
  | [] => None
  | r :: rest =>
      if test (pattern r) url then
        let match_ := exec (pattern r) url in
        Some {| mr_match := match_; mr_handler := handler r |}
      else scan rest url
  end.

(** [#getRoute (url)]; [None] is [undefined].  A handler is a function
    ([add (route: string, handler: Function)] in [types/index.d.ts]), so
    [if (staticRoute)] tests the presence of the key. *)
Definition getRoute (url : URL) : M (option MatchedRoute) :=
  let* this := get in
  let staticRoute := staticRoutes this !! pathname url in
  match staticRoute with
  | Some h => ret (Some {| mr_match := None; mr_handler := h |})
  | None => ret (scan (dynamicRoutes this) url)
  end.

(** [match?.pathname?.groups] *)
Definition optional_groups (match_ : option URLPatternResult) : option Groups :=
  match match_ with
  | None => None
  | Some m => Some (groups (res_pathname m))
  end.

(** The body of the [async () => { ... }] passed to [event.intercept], over
    the code it calls: the listeners of ['change'] and the route's handler,
    which run on the router as it is when they are called.  Its result is
    the result of [handler (route)]. *)
Definition intercept_body {A} (c : Copy) (route : Route)
    (listeners : RouterEvent -> M unit) (handler : Route -> M A) : M A :=
  emit_with listeners c "change" (DetailRoute route) ;;
  let* this := get in
  match resolveRouteChange this with
  | Some resolve =>
      perform (CallResolver resolve {| value := route; done := false |}) ;;
      set_resolveRouteChange None
  | None => ret tt
  end ;;
  handler route.

(** The closure run when the host invokes it, with listeners and a handler
    that leave the router alone: the handler call is recorded. *)
Definition intercept_handler (c : Copy) (d : Deferred) : M unit :=
  intercept_body c (d_route d) (fun _ => ret tt)
    (fun route => perform (CallHandler (d_handler d) route)).

(** [match (url, event)] *)
Definition match_ (c : Copy) (url : URL) (event : NavigateEvent) : M unit :=
  let* matchedRoute := getRoute url in
  match matchedRoute with
  | None => emit c "404" (DetailURL url)
  | Some mr =>
      let route := {| params := optional_groups (mr_match mr); url := url |} in
      perform (Intercept event {| d_route := route; d_handler := mr_handler mr |})
  end.

(** ** Navigation bridge *)

(** The property the listener reads for downloads: [event.downloadRequest]
    in the first copy, [event.downLoadRequest] in the second. *)
Definition download_property (c : Copy) : string :=
  match c with
  | Copy1 => "downloadRequest"
  | Copy2 => "downLoadRequest"
  end.

(** The ['navigate'] listener installed by the constructor. *)
Definition navigate_listener `{Platform} (c : Copy) (event : NavigateEvent) : M unit :=
  if negb (truthy (prop event "canIntercept"))
     || truthy (prop event "hashChange")
     || truthy (prop event (download_property c))
  then ret tt
  else
    let* url := lift (URL_new (destination_url event)) in
    if negb (String.eqb (host url) location_host) then ret tt
    else match_ c url event.

(** ** Async-sequence bridge

    [async *[Symbol.asyncIterator] ()] as the state machine of its
    generator object.  In an async generator [yield e] first awaits [e], so
    after a pull the generator is running, parked on the promise it has just
    created, until that promise is resolved; requests that arrive meanwhile
    wait in the generator's queue.  A [return ()] that resumes the generator
    at a [yield] awaits its argument before the [finally] block runs; a
    [throw ()] runs it at once. *)

Inductive GeneratorState : Type :=
| SuspendedStart
| AwaitingPromise (p : nat)
| AwaitingReturn
| SuspendedYield
| Completed.

(** [next ()], [return ()] and [throw ()] on the iterator.  A [for await]
    loop left by [break], [return] or an exception calls [return ()]. *)
Inductive Request : Type :=
| NextRequest
| ReturnRequest
| ThrowRequest.

(** Jobs of the microtask queue that concern the generator. *)
Inductive Job : Type :=
| PromiseReaction (p : nat) (x : IterResult)
| ReturnReaction.

(** One router, one iterator over it, and the host around them. *)
Record World : Type := mkWorld {
  router : Router;
  generator : GeneratorState;
  (** requests not yet completed, oldest first *)
  requests : list Request;
  (** number of promises created by the generator *)
  promises : nat;
  (** microtasks not yet run, oldest first *)
  jobs : list Job;
  (** claimed navigations whose handler the host has not invoked yet *)
  intercepted : list Deferred;
  (** values the iterator has produced for its consumer *)
  delivered : list IterResult;
  (** calls made by the router, oldest first *)
  log : list Effect
}.

Definition new_world : World :=
  {| router := new_router; generator := SuspendedStart; requests := [];
     promises := 0; jobs := []; intercepted := []; delivered := [];
     log := [] |}.

Definition with_router (r : Router) (w : World) : World :=
  mkWorld r (generator w) (requests w) (promises w) (jobs w)
          (intercepted w) (delivered w) (log w).

Definition with_generator (g : GeneratorState) (q : list Request) (w : World) : World :=
  mkWorld (router w) g q (promises w) (jobs w)
          (intercepted w) (delivered w) (log w).

Definition with_jobs (j : list Job) (w : World) : World :=
  mkWorld (router w) (generator w) (requests w) (promises w) j
          (intercepted w) (delivered w) (log w).

(** What the world does with a call the router makes: [event.intercept]
    hands the closure to the host, calling a resolver resolves its promise
    and queues the reaction of the generator awaiting it. *)
Definition absorb (w : World) (e : Effect) : World :=
  let w' := mkWorld (router w) (generator w) (requests w) (promises w)
                    (jobs w) (intercepted w) (delivered w) (log w ++ [e]) in
  match e with
  | Intercept _ d =>
      mkWorld (router w') (generator w') (requests w') (promises w')
              (jobs w') (intercepted w' ++ [d]) (delivered w') (log w')
  | CallResolver (ResolveOf p) x =>
      with_jobs (jobs w' ++ [PromiseReaction p x]) w'
  | _ => w'
  end.

(** Run a method of the router in the world. *)
Definition call {A} (m : M A) (w : World) : World :=
  match m (router w) with
  | (_, r, out) => fold_left absorb out (with_router r w)
  end.

(** One turn of [while (true) { yield new Promise (...) }] up to the await:
    the executor stores the new promise's resolver in the slot. *)
Definition loop_body (w : World) : World :=
  let p := promises w in
  let w := call (set_resolveRouteChange (Some (ResolveOf p))) w in
  mkWorld (router w) (AwaitingPromise p) (requests w) (S p) (jobs w)
          (intercepted w) (delivered w) (log w).

(** The [finally] block, after which the generator is complete; the requests
    still queued are answered without running its body. *)
Definition finally_block (w : World) : World :=
  with_generator Completed [] (call (set_resolveRouteChange None) w).

(** Resume a generator that is not running with the oldest request. *)
Definition drive (w : World) : World :=
  match requests w with
  | [] => w
  | q :: _ =>
      match generator w, q with
      | AwaitingPromise _, _ => w
      | AwaitingReturn, _ => w
      | SuspendedStart, NextRequest => loop_body w
      | SuspendedStart, _ => with_generator Completed [] w
      | SuspendedYield, NextRequest => loop_body w
      | SuspendedYield, ReturnRequest =>
          with_jobs (jobs w ++ [ReturnReaction])
                    (with_generator AwaitingReturn (requests w) w)
      | SuspendedYield, ThrowRequest => finally_block w
      | Completed, _ => with_generator Completed [] w
      end
  end.

Definition iterator_request (q : Request) (w : World) : World :=
  drive (with_generator (generator w) (requests w ++ [q]) w).

(** Run the oldest microtask.  The reaction of a resolved promise: if the
    generator is parked on that promise it yields the value to the oldest
    request and goes on with the next one, if any.  The reaction of an
    awaited [return ()]: the [finally] block. *)
Definition run_job (w : World) : World :=
  match jobs w with
  | [] => w
  | j :: rest =>
      let w := with_jobs rest w in
      match j, generator w with
      | PromiseReaction p x, AwaitingPromise p' =>
          if Nat.eqb p p' then
            drive (mkWorld (router w) SuspendedYield (tail (requests w))
                           (promises w) (jobs w) (intercepted w)
                           (delivered w ++ [x]) (log w))
          else w
      | ReturnReaction, AwaitingReturn => finally_block w
      | _, _ => w
      end
  end.

(** The host invokes the handler of the oldest claimed navigation. *)
Definition invoke_intercepted (c : Copy) (w : World) : World :=
  match intercepted w with
  | [] => w
  | d :: rest =>
      call (intercept_handler c d)
           (mkWorld (router w) (generator w) (requests w) (promises w)
                    (jobs w) rest (delivered w) (log w))
  end.

Inductive Action : Type :=
| Add (route : string) (handler : Handler)
| Navigate (event : NavigateEvent)
| InvokeIntercepted
| Iterate (q : Request)
| Microtask.

Definition step `{Platform} (c : Copy) (w : World) (a : Action) : World :=
  match a with
  | Add route handler => call (add route handler) w
  | Navigate event => call (navigate_listener c event) w
  | InvokeIntercepted => invoke_intercepted c w
  | Iterate q => iterator_request q w
  | Microtask => run_job w
  end.

Definition run `{Platform} (c : Copy) (acts : list Action) (w : World) : World :=
  fold_left (step c) acts w.

(** ** A small browser

    An instance of [Platform] on which the definitions can be run: URLs of
    the shape [scheme://host/path?query#fragment], and pathname templates made
    of literal segments and [:name] segments. *)

Module Browser.

Fixpoint break (stop : ascii -> bool) (s : string) : string * string :=
  match s with
  | EmptyString => (EmptyString, EmptyString)
  | String a s' =>
      if stop a then (EmptyString, s)
      else let (x, y) := break stop s' in (String a x, y)
  end.

Definition is_char (c : string) (a : ascii) : bool := String.eqb (String a EmptyString) c.

Definition parse_url (s : string) : Completion URL :=
  let (scheme, rest) := break (is_char ":") s in
  if String.prefix "://" rest then
    let rest := substring 3 (String.length rest) rest in
    let (host, rest) := break (fun a => is_char "/" a || is_char "?" a || is_char "#" a) rest in
    let (path, rest) := break (fun a => is_char "?" a || is_char "#" a) rest in
    let (search, hash) := break (is_char "#") rest in
    Normal {| href := s; protocol := scheme ++ ":"; host := host;
              pathname := if String.eqb path "" then "/" else path;
              search := search; hash := hash |}
  else Throw (TypeError "Invalid URL").

(** The segments of a path, without the separators. *)
Fixpoint segments (fuel : nat) (s : string) : list string :=
  match fuel with
  | O => []
  | S fuel =>
      let (seg, rest) := break (is_char "/") s in
      match rest with
      | EmptyString => [seg]
      | String _ rest' => seg :: segments fuel rest'
      end
  end.

Definition split_path (s : string) : list string := segments (S (String.length s)) s.

Fixpoint match_segments (tpl path : list string) : option Groups :=
  match tpl, path with
  | [], [] => Some ∅
  | t :: tpl', p :: path' =>
      match t with
      | String ":" nm =>
          if String.eqb p "" then None
          else (fun g : Groups => <[nm := Some p]> g) <$> match_segments tpl' path'
      | _ => if String.eqb t p then match_segments tpl' path' else None
      end
  | _, _ => None
  end.

Definition compile (template : string) : Completion URLPattern :=
  let tpl := split_path template in
  if existsb (String.eqb ":") tpl then Throw (TypeError "Invalid pathname pattern")
  else
    let run (u : URL) := match_segments tpl (split_path (pathname u)) in
    Normal {| test := fun u => bool_decide (is_Some (run u));
              exec := fun u =>
                (fun g => {| res_pathname := {| input := pathname u; groups := g |} |})
                  <$> run u |}.

#[export] Instance site : Platform :=
  {| URLPattern_new := compile; URL_new := parse_url; location_host := "site" |}.

End Browser.

(** ** Scenarios *)

(** [router.add (p1, h1); router.add (p2, h2); ...] *)
Fixpoint add_all `{Platform} (calls : list (string * Handler)) : M unit :=
  match calls with
  | [] => ret tt
  | (route, handler) :: rest => add route handler ;; add_all rest
  end.

(** The pattern entries a sequence of registrations makes, in call order. *)
Definition registered_patterns `{Platform} (calls : list (string * Handler)) :
    list DynamicRoute :=
  omap (fun call : string * Handler =>
          if includes (fst call) ":" then
            match URLPattern_new (fst call) with
            | Normal p => Some {| route := fst call; pattern := p; handler := snd call |}
            | Throw _ => None
            end
          else None) calls.

Definition is_add (a : Action) : bool :=
  match a with
  | Add _ _ => true
  | _ => false
  end.

Module Examples.
Import Browser.

(** A same-document link click. *)
Definition navigation (u : string) : NavigateEvent :=
  {| canIntercept := JBool true; hashChange := JBool false;
     downloadRequest := JNull; destination_url := u |}.

(** The same with [downloadRequest = true]. *)
Definition download (u : string) : NavigateEvent :=
  {| canIntercept := JBool true; hashChange := JBool false;
     downloadRequest := JBool true; destination_url := u |}.

(** A download as the Navigation API reports it, with the file name. *)
Definition save_as (u : string) : NavigateEvent :=
  {| canIntercept := JBool true; hashChange := JBool false;
     downloadRequest := JString "report.pdf"; destination_url := u |}.

Definition url_of (path : string) : URL :=
  {| href := "https://site" ++ path; protocol := "https:"; host := "site";
     pathname := path; search := ""; hash := "" |}.

End Examples.

(** ** Reading results and traces *)

Definition rejects (url : URL) (r : DynamicRoute) : Prop := test (pattern r) url = false.

Definition route_of (url : URL) (mr : MatchedRoute) : Route :=
  {| params := optional_groups (mr_match mr); url := url |}.

(** The router with its slot emptied. *)
Definition slot_cleared (r : Router) : Router :=
  {| staticRoutes := staticRoutes r;
     dynamicRoutes := dynamicRoutes r;
     resolveRouteChange := None |}.

Definition resolver_call (slot : option Resolver) (route : Route) : list Effect :=
  match slot with
  | Some resolve => [CallResolver resolve {| value := route; done := false |}]
  | None => []
  end.

Definition handlers_called (out : list Effect) : list Handler :=
  omap (fun e => match e with CallHandler h _ => Some h | _ => None end) out.

Definition events_named (n : string) (out : list Effect) : list RouterEvent :=
  omap (fun e => match e with
                 | DispatchEvent ev => if String.eqb (name ev) n then Some ev else None
                 | _ => None
                 end) out.

Definition claimed (out : list Effect) : list Deferred :=
  omap (fun e => match e with Intercept _ d => Some d | _ => None end) out.

Definition resolver_calls (out : list Effect) : list (Resolver * IterResult) :=
  omap (fun e => match e with CallResolver r x => Some (r, x) | _ => None end) out.

(** [r'] has the route table of [r]. *)
Definition same_table (r r' : Router) : Prop :=
  staticRoutes r' = staticRoutes r /\ dynamicRoutes r' = dynamicRoutes r.

(** ** The iterator and the slot *)

(** A pull has been requested and not answered yet. *)
Definition pull_pending (w : World) : bool :=
  match generator w with
  | AwaitingPromise _ => true
  | _ => false
  end.

(** The requests by which a consumer abandons the iteration. *)
Definition abandons (q : Request) : bool :=
  match q with
  | NextRequest => false
  | ReturnRequest | ThrowRequest => true
  end.

(** The microtasks queued by the resolver calls of a trace. *)
Definition reactions_of (out : list Effect) : list Job :=
  omap (fun e => match e with
                 | CallResolver (ResolveOf p) x => Some (PromiseReaction p x)
                 | _ => None
                 end) out.

(** Promises are numbered as they are created; the slot is empty unless a
    pull is pending, and once the pending promise is resolved the slot is
    empty. *)
Definition coherent (w : World) : Prop :=
  (forall p x, In (PromiseReaction p x) (jobs w) -> p < promises w) /\
  (forall p, resolveRouteChange (router w) = Some (ResolveOf p) -> p < promises w) /\
  match generator w with
  | AwaitingPromise p =>
      p < promises w /\
      (forall x, In (PromiseReaction p x) (jobs w) ->
                 resolveRouteChange (router w) = None)
  | _ => resolveRouteChange (router w) = None
  end.

(** Requests wait in the queue only while the generator is running. *)
Definition settled (w : World) : Prop :=
  match generator w with
  | AwaitingPromise _ | AwaitingReturn => True
  | _ => requests w = []
  end.

(** The iteration is over, or about to be, and the slot is empty. *)
Definition stopped (w : World) : Prop :=
  resolveRouteChange (router w) = None /\
  (generator w = Completed \/ generator w = AwaitingReturn).

(** ** Construction *)

(** What the constructor looks at: [typeof window], [typeof
    window.navigation] (read only when [window] is defined) and
    [typeof URLPattern]. *)
Record Globals : Type := {
  window_defined : bool;
  navigation_defined : bool;
  URLPattern_defined : bool
}.

(** [constructor ()]: the field initialisers, the two capability checks and
    the registration of the ['navigate'] listener, whose runs are the
    [Navigate] steps of the world.  The messages differ between the
    copies. *)
Definition constructor (c : Copy) (g : Globals) : Completion Router :=
  if negb (window_defined g) || negb (navigation_defined g) then
    Throw (Error match c with
                 | Copy1 => "Navigation API unavailable"
                 | Copy2 => "navigation api unavailable"
                 end)
  else if negb (URLPattern_defined g) then
    Throw (Error match c with
                 | Copy1 => "URLPattern API unavailable"
                 | Copy2 => "URLPattern api unavailable"
                 end)
  else Normal new_router.

(** ** More ways to read a run *)

(** The navigation passes every test of the listener and [u] is its parsed
    destination. *)
Definition eligible `{Platform} (c : Copy) (event : NavigateEvent) (u : URL) : Prop :=
  truthy (canIntercept event) = true /\
  truthy (hashChange event) = false /\
  truthy (prop event (download_property c)) = false /\
  URL_new (destination_url event) = Normal u /\
  host u = location_host.

(** The closures whose handler has been called, by their captured
    variables. *)
Definition handled (out : list Effect) : list Deferred :=
  omap (fun e => match e with
                 | CallHandler h r => Some {| d_route := r; d_handler := h |}
                 | _ => None
                 end) out.

(** The events dispatched, whatever their name. *)
Definition dispatched (out : list Effect) : list RouterEvent :=
  omap (fun e => match e with DispatchEvent ev => Some ev | _ => None end) out.

(** The promises whose resolver has been called. *)
Definition resolved_promises (out : list Effect) : list nat :=
  omap (fun e => match e with CallResolver (ResolveOf p) _ => Some p | _ => None end) out.

(** The promise reactions waiting in the microtask queue. *)
Definition pending_promises (js : list Job) : list nat :=
  omap (fun j => match j with PromiseReaction p _ => Some p | ReturnReaction => None end) js.

Definition pending_values (js : list Job) : list IterResult :=
  omap (fun j => match j with PromiseReaction _ x => Some x | ReturnReaction => None end) js.

(** The slot, when set, holds the resolver of the pull in progress, which is
    the last promise created; a promise reaction in the queue is for the
    pull in progress, and there is at most one. *)
Definition slot_tracks_pull (w : World) : Prop :=
  (forall p, resolveRouteChange (router w) = Some (ResolveOf p) ->
             generator w = AwaitingPromise p /\ pending_promises (jobs w) = []) /\
  (forall p, generator w = AwaitingPromise p -> promises w = S p) /\
  (pending_promises (jobs w) = [] \/
   exists p, pending_promises (jobs w) = [p] /\ generator w = AwaitingPromise p).

Definition is_abandon (a : Action) : bool :=
  match a with
  | Iterate q => abandons q
  | _ => false
  end.

Definition running_or_idle (g : GeneratorState) : bool :=
  match g with
  | SuspendedStart | AwaitingPromise _ | SuspendedYield => true
  | AwaitingReturn | Completed => false
  end.

(** The generator has not been asked to stop: it is not completing, and no
    [return ()] or [throw ()] waits in its queue. *)
Definition unstopped (w : World) : Prop :=
  running_or_idle (generator w) = true /\
  Forall (fun q => abandons q = false) (requests w).

(** No promise has been resolved twice; the resolved ones are among those
    created, and the slot does not hold the resolver of one of them. *)
Definition resolved_once (w : World) : Prop :=
  NoDup (resolved_promises (log w)) /\
  forall p, p ∈ resolved_promises (log w) ->
            p < promises w /\ resolveRouteChange (router w) <> Some (ResolveOf p).

(** The steps the consumer and the microtask queue take, as opposed to those
    of the application and the host. *)
Definition consumer_step (a : Action) : bool :=
  match a with
  | Iterate _ | Microtask => true
  | _ => false
  end.

(** ** The two copies side by side *)

(** An effect without the [options] of its event. *)
Definition without_options (e : Effect) : Effect :=
  match e with
  | DispatchEvent ev =>
      DispatchEvent {| name := name ev; detail := detail ev; options := None |}
  | _ => e
  end.

(** Two worlds that differ at most in the [options] of the events in their
    logs. *)
Definition same_but_options (w1 w2 : World) : Prop :=
  router w1 = router w2 /\
  generator w1 = generator w2 /\
  requests w1 = requests w2 /\
  promises w1 = promises w2 /\
  jobs w1 = jobs w2 /\
  intercepted w1 = intercepted w2 /\
  delivered w1 = delivered w2 /\
  map without_options (log w1) = map without_options (log w2).

Definition not_a_download (a : Action) : bool :=
  match a with
  | Navigate event => negb (truthy (downloadRequest event))
  | _ => true
  end.
(** * Properties *)

Ltac unfold_m :=
  unfold set_staticRoutes, set_dynamicRoutes, set_resolveRouteChange,
    emit, emit_with, dispatchEvent, bind, get, put, ret, perform, lift in *.

(** ** The method monad *)

Lemma bind_normal {A B} (m : M A) (k : A -> M B) (this r : Router) (a : A)
    (out : list Effect) :
  m this = (Normal a, r, out) ->
  bind m k this = (completion (k a r), final (k a r), out ++ effects (k a r)).
Proof.
  intros Hm. unfold bind. rewrite Hm. destruct (k a r) as [[c r'] out']. reflexivity.
Qed.

Lemma bind_throw {A B} (m : M A) (k : A -> M B) (this r : Router) (e : JSError)
    (out : list Effect) :
  m this = (Throw e, r, out) ->
  bind m k this = (Throw e, r, out).
Proof. intros Hm. unfold bind. rewrite Hm. reflexivity. Qed.

(** ** The route table *)

Section RouteTable.
Context `{Platform}.

Lemma add_static (route : string) (h : Handler) (this : Router) :
  includes route ":" = false ->
  add route h this =
    (Normal tt,
     {| staticRoutes := <[route := h]> (staticRoutes this);
        dynamicRoutes := dynamicRoutes this;
        resolveRouteChange := resolveRouteChange this |},
     []).
Proof. intros Hs. unfold add. rewrite Hs. reflexivity. Qed.

Lemma add_dynamic (route : string) (h : Handler) (this : Router) (p : URLPattern) :
  includes route ":" = true ->
  URLPattern_new route = Normal p ->
  add route h this =
    (Normal tt,
     {| staticRoutes := staticRoutes this;
        dynamicRoutes :=
          dynamicRoutes this ++ [{| route := route; pattern := p; handler := h |}];
        resolveRouteChange := resolveRouteChange this |},
     []).
Proof. intros Hd Hp. unfold add. rewrite Hd. unfold_m. rewrite Hp. reflexivity. Qed.

Lemma add_throws (route : string) (h : Handler) (this : Router) (e : JSError) :
  includes route ":" = true ->
  URLPattern_new route = Throw e ->
  add route h this = (Throw e, this, []).
Proof. intros Hd Hp. unfold add. rewrite Hd. unfold_m. rewrite Hp. reflexivity. Qed.

(** [add] makes no call to the outside and leaves the slot alone. *)
Lemma add_quiet (route : string) (h : Handler) (this : Router) :
  effects (add route h this) = [] /\
  resolveRouteChange (final (add route h this)) = resolveRouteChange this.
Proof.
  destruct (includes route ":") eqn:Hi.
  - destruct (URLPattern_new route) as [p|e] eqn:Hp.
    + rewrite (add_dynamic _ _ _ p) by assumption. split; reflexivity.
    + rewrite (add_throws _ _ _ e) by assumption. split; reflexivity.
  - rewrite add_static by assumption. split; reflexivity.
Qed.

End RouteTable.

Lemma getRoute_pure (url : URL) (this : Router) :
  final (getRoute url this) = this /\ effects (getRoute url this) = [].
Proof.
  unfold getRoute. unfold_m.
  destruct (staticRoutes this !! pathname url); split; reflexivity.
Qed.

Lemma getRoute_static (url : URL) (this : Router) (h : Handler) :
  staticRoutes this !! pathname url = Some h ->
  getRoute url this = (Normal (Some {| mr_match := None; mr_handler := h |}), this, []).
Proof. intros Hs. unfold getRoute. unfold_m. rewrite Hs. reflexivity. Qed.

Lemma getRoute_dynamic (url : URL) (this : Router) :
  staticRoutes this !! pathname url = None ->
  getRoute url this = (Normal (scan (dynamicRoutes this) url), this, []).
Proof. intros Hs. unfold getRoute. unfold_m. rewrite Hs. reflexivity. Qed.

Lemma scan_first (url : URL) (before after : list DynamicRoute) (r : DynamicRoute) :
  Forall (rejects url) before ->
  test (pattern r) url = true ->
  scan (before ++ r :: after) url =
    Some {| mr_match := exec (pattern r) url; mr_handler := handler r |}.
Proof.
  induction 1 as [|r0 before Hr0 _ IH]; intros Hr; simpl.
  - rewrite Hr. reflexivity.
  - unfold rejects in Hr0. rewrite Hr0. apply IH, Hr.
Qed.

Lemma scan_none (url : URL) (routes : list DynamicRoute) :
  Forall (rejects url) routes <-> scan routes url = None.
Proof.
  induction routes as [|r routes IH]; simpl.
  - split; [reflexivity | constructor].
  - destruct (test (pattern r) url) eqn:Hr.
    + split; [|discriminate]. intros Hall. inversion Hall; subst.
      unfold rejects in *. congruence.
    + rewrite <- IH. split.
      * intros Hall. inversion Hall; assumption.
      * intros Hall. constructor; assumption.
Qed.

Lemma scan_some (url : URL) (routes : list DynamicRoute) (mr : MatchedRoute) :
  scan routes url = Some mr ->
  exists before r after,
    routes = before ++ r :: after /\
    Forall (rejects url) before /\
    test (pattern r) url = true /\
    mr = {| mr_match := exec (pattern r) url; mr_handler := handler r |}.
Proof.
  induction routes as [|r routes IH]; simpl; [discriminate|].
  destruct (test (pattern r) url) eqn:Hr.
  - intros [= <-]. exists [], r, routes. repeat split; [constructor | assumption].
  - intros Hs. destruct (IH Hs) as (before & r' & after & -> & Hb & Ht & ->).
    exists (r :: before), r', after. repeat split; try assumption.
    constructor; assumption.
Qed.

(** ** Match and dispatch *)

Lemma match_found (c : Copy) (url : URL) (event : NavigateEvent)
    (this : Router) (mr : MatchedRoute) :
  completion (getRoute url this) = Normal (Some mr) ->
  match_ c url event this =
    (Normal tt, this,
     [Intercept event {| d_route := route_of url mr; d_handler := mr_handler mr |}]).
Proof.
  unfold match_, getRoute. unfold_m.
  destruct (staticRoutes this !! pathname url); simpl.
  - intros [= <-]. reflexivity.
  - intros [= ->]. reflexivity.
Qed.

Lemma match_not_found (c : Copy) (url : URL) (event : NavigateEvent)
    (this : Router) :
  completion (getRoute url this) = Normal None ->
  match_ c url event this =
    (Normal tt, this, [DispatchEvent (RouterEvent_make c "404" (DetailURL url))]).
Proof.
  unfold match_, getRoute. unfold_m.
  destruct (staticRoutes this !! pathname url); simpl; [discriminate|].
  intros [= ->]. reflexivity.
Qed.

Lemma intercept_handler_run (c : Copy) (d : Deferred) (this : Router) :
  intercept_handler c d this =
    (Normal tt,
     {| staticRoutes := staticRoutes this;
        dynamicRoutes := dynamicRoutes this;
        resolveRouteChange := None |},
     DispatchEvent (RouterEvent_make c "change" (DetailRoute (d_route d)))
       :: resolver_call (resolveRouteChange this) (d_route d)
       ++ [CallHandler (d_handler d) (d_route d)]).
Proof.
  unfold intercept_handler, intercept_body. unfold_m.
  destruct this as [s dy [r|]]; reflexivity.
Qed.

(** ** Sequences of registrations *)

Section Registrations.
Context `{Platform}.

Lemma add_all_cons (route : string) (h : Handler) (rest : list (string * Handler))
    (this : Router) :
  completion (add_all ((route, h) :: rest) this) = Normal tt ->
  completion (add route h this) = Normal tt /\
  completion (add_all rest (final (add route h this))) = Normal tt /\
  final (add_all ((route, h) :: rest) this) = final (add_all rest (final (add route h this))).
Proof.
  simpl add_all.
  destruct (add route h this) as [[[[]|e] r1] out1] eqn:Ha.
  - rewrite (bind_normal _ _ _ _ _ _ Ha). simpl. auto.
  - rewrite (bind_throw _ _ _ _ _ _ Ha). discriminate.
Qed.

Lemma add_all_app (l1 l2 : list (string * Handler)) (this : Router) :
  completion (add_all (l1 ++ l2) this) = Normal tt ->
  completion (add_all l1 this) = Normal tt /\
  completion (add_all l2 (final (add_all l1 this))) = Normal tt /\
  final (add_all (l1 ++ l2) this) = final (add_all l2 (final (add_all l1 this))).
Proof.
  revert this. induction l1 as [|[route h] l1 IH]; intros this; simpl app.
  - intros Hn. repeat split; assumption.
  - intros Hn. destruct (add_all_cons _ _ _ _ Hn) as (Ha & Hrest & Hfin).
    destruct (IH _ Hrest) as (H1 & H2 & H3).
    rewrite Hfin, H3. simpl add_all.
    destruct (add route h this) as [[[[]|e] r1] out1] eqn:Hadd; [|discriminate].
    rewrite (bind_normal _ _ _ _ _ _ Hadd). simpl in *. auto.
Qed.

(** Registering other paths does not touch the entry of [p]. *)
Lemma add_other (route p : string) (h : Handler) (this : Router) :
  route <> p ->
  staticRoutes (final (add route h this)) !! p = staticRoutes this !! p.
Proof.
  intros Hne. destruct (includes route ":") eqn:Hi.
  - destruct (URLPattern_new route) as [pat|e] eqn:Hp.
    + rewrite (add_dynamic _ _ _ pat) by assumption. reflexivity.
    + rewrite (add_throws _ _ _ e) by assumption. reflexivity.
  - rewrite add_static by assumption. simpl. apply lookup_insert_ne, Hne.
Qed.

Lemma add_all_other (calls : list (string * Handler)) (p : string) (this : Router) :
  Forall (fun call => fst call <> p) calls ->
  completion (add_all calls this) = Normal tt ->
  staticRoutes (final (add_all calls this)) !! p = staticRoutes this !! p.
Proof.
  intros Hall. revert this.
  induction Hall as [|[route h] calls Hne _ IH]; intros this Hn.
  - reflexivity.
  - destruct (add_all_cons _ _ _ _ Hn) as (_ & Hrest & ->).
    rewrite (IH _ Hrest). apply add_other, Hne.
Qed.

Lemma add_all_latest (before after : list (string * Handler)) (p : string)
    (h : Handler) (this : Router) :
  includes p ":" = false ->
  Forall (fun call => fst call <> p) after ->
  completion (add_all (before ++ (p, h) :: after) this) = Normal tt ->
  staticRoutes (final (add_all (before ++ (p, h) :: after) this)) !! p = Some h.
Proof.
  intros Hs Hafter Hn.
  destruct (add_all_app _ _ _ Hn) as (_ & Hn2 & ->).
  destruct (add_all_cons _ _ _ _ Hn2) as (_ & Hn3 & ->).
  rewrite (add_all_other _ _ _ Hafter Hn3).
  rewrite add_static by assumption. simpl. apply lookup_insert_eq.
Qed.

(** The pattern sequence is in registration order. *)
Lemma add_all_registration_order (calls : list (string * Handler)) (this : Router) :
  completion (add_all calls this) = Normal tt ->
  dynamicRoutes (final (add_all calls this)) =
    dynamicRoutes this ++ registered_patterns calls.
Proof.
  revert this. induction calls as [|[route h] calls IH]; intros this Hn.
  - simpl. rewrite app_nil_r. reflexivity.
  - destruct (add_all_cons _ _ _ _ Hn) as (Ha & Hrest & ->).
    rewrite (IH _ Hrest). unfold registered_patterns. simpl.
    destruct (includes route ":") eqn:Hi.
    + destruct (URLPattern_new route) as [p|e] eqn:Hp.
      * rewrite (add_dynamic route h this p Hi Hp). simpl.
        rewrite <- app_assoc. reflexivity.
      * rewrite (add_throws route h this e Hi Hp) in Ha. discriminate.
    + rewrite (add_static route h this Hi). reflexivity.
Qed.

End Registrations.

(** ** Frame lemmas *)

Lemma match_frame (c : Copy) (url : URL) (event : NavigateEvent)
    (this : Router) :
  final (match_ c url event this) = this.
Proof.
  destruct (scan (dynamicRoutes this) url) as [mr|] eqn:Hscan;
    destruct (staticRoutes this !! pathname url) as [h|] eqn:Hs.
  - erewrite match_found; [reflexivity|]. rewrite (getRoute_static _ _ h Hs). reflexivity.
  - erewrite match_found; [reflexivity|]. rewrite (getRoute_dynamic _ _ Hs), Hscan. reflexivity.
  - erewrite match_found; [reflexivity|]. rewrite (getRoute_static _ _ h Hs). reflexivity.
  - rewrite match_not_found; [reflexivity|]. rewrite (getRoute_dynamic _ _ Hs), Hscan. reflexivity.
Qed.

Lemma navigate_listener_frame `{Platform} (c : Copy) (event : NavigateEvent) (this : Router) :
  final (navigate_listener c event this) = this.
Proof.
  unfold navigate_listener.
  destruct (negb (truthy (prop event "canIntercept")) || truthy (prop event "hashChange")
            || truthy (prop event (download_property c))); [reflexivity|].
  destruct (URL_new (destination_url event)) as [u|e] eqn:Hu.
  - rewrite (bind_normal _ _ _ this u [] ); [|reflexivity].
    destruct (negb (String.eqb (host u) location_host)); [reflexivity|].
    apply match_frame.
  - rewrite (bind_throw _ _ _ this e []); reflexivity.
Qed.

(** The listener makes no call but those of [match]. *)
Lemma navigate_listener_effects `{Platform} (c : Copy) (event : NavigateEvent) (this : Router) :
  effects (navigate_listener c event this) = [] \/
  exists url, URL_new (destination_url event) = Normal url /\
              navigate_listener c event this = match_ c url event this.
Proof.
  unfold navigate_listener.
  destruct (negb (truthy (prop event "canIntercept")) || truthy (prop event "hashChange")
            || truthy (prop event (download_property c))); [left; reflexivity|].
  destruct (URL_new (destination_url event)) as [u|e] eqn:Hu.
  - rewrite (bind_normal _ _ _ this u [] ); [|reflexivity].
    destruct (negb (String.eqb (host u) location_host)); [left; reflexivity|].
    right. exists u. split; [reflexivity|].
    destruct (match_ c u event this) as [[k r] out]. reflexivity.
  - rewrite (bind_throw _ _ _ this e []); [left; reflexivity|reflexivity].
Qed.

(** A navigation that passes the filter is handed to [match]. *)
Lemma navigate_listener_eligible `{Platform} (c : Copy) (event : NavigateEvent)
    (this : Router) (u : URL) :
  truthy (canIntercept event) = true ->
  truthy (hashChange event) = false ->
  truthy (prop event (download_property c)) = false ->
  URL_new (destination_url event) = Normal u ->
  host u = location_host ->
  navigate_listener c event this = match_ c u event this.
Proof.
  intros Hc Hh Hd Hu Hhost. unfold navigate_listener.
  change (prop event "canIntercept") with (canIntercept event).
  change (prop event "hashChange") with (hashChange event).
  rewrite Hc, Hh, Hd. simpl.
  rewrite (bind_normal _ _ this this u []); [|unfold lift; rewrite Hu; reflexivity].
  apply String.eqb_eq in Hhost. rewrite Hhost. simpl.
  destruct (match_ c u event this) as [[k r] out]. reflexivity.
Qed.

Lemma absorb_router (w : World) (e : Effect) : router (absorb w e) = router w.
Proof. destruct e as [ev|[p] x|h r|ev' d]; reflexivity. Qed.

Lemma fold_absorb_router (out : list Effect) (w : World) :
  router (fold_left absorb out w) = router w.
Proof.
  revert w. induction out as [|e out IH]; intros w; simpl; [reflexivity|].
  rewrite IH. apply absorb_router.
Qed.

Lemma call_router {A} (m : M A) (w : World) : router (call m w) = final (m (router w)).
Proof.
  unfold call. destruct (m (router w)) as [[k r] out]. rewrite fold_absorb_router.
  reflexivity.
Qed.

Lemma same_table_refl (r : Router) : same_table r r.
Proof. split; reflexivity. Qed.

Lemma loop_body_table (w : World) : same_table (router w) (router (loop_body w)).
Proof. unfold loop_body. cbn [router]. rewrite call_router. split; reflexivity. Qed.

Lemma finally_block_table (w : World) : same_table (router w) (router (finally_block w)).
Proof.
  unfold finally_block, with_generator. cbn [router]. rewrite call_router.
  split; reflexivity.
Qed.

Lemma drive_table (w : World) : same_table (router w) (router (drive w)).
Proof.
  unfold drive. destruct (requests w) as [|[] ?]; [apply same_table_refl| | |];
    destruct (generator w);
    auto using same_table_refl, loop_body_table, finally_block_table.
Qed.

Lemma run_job_table (w : World) : same_table (router w) (router (run_job w)).
Proof.
  unfold run_job. destruct (jobs w) as [|[p x|] rest]; [apply same_table_refl| |].
  - simpl. destruct (generator w); try apply same_table_refl.
    destruct (Nat.eqb p p0); [|apply same_table_refl].
    match goal with |- same_table _ (router (drive ?w')) =>
      exact (drive_table w') end.
  - simpl. destruct (generator w); try apply same_table_refl.
    exact (finally_block_table (with_jobs rest w)).
Qed.

Lemma invoke_intercepted_table (c : Copy) (w : World) :
  same_table (router w) (router (invoke_intercepted c w)).
Proof.
  unfold invoke_intercepted. destruct (intercepted w) as [|d rest]; [apply same_table_refl|].
  rewrite call_router, intercept_handler_run. split; reflexivity.
Qed.

(** * The specification's claims *)

(** Closed examples run in the small browser. *)
Import Browser.

(** ** Static routes *)

(** C1, as amended.  Let [p] be a static path whose latest registration is
    [add (p, h)].  A [match] on a URL whose pathname is [p] claims the
    navigation for [h], and the matched-route record handed to the ['change']
    listeners and to [h] has [params] undefined: a static route carries no
    pattern result, and [match?.pathname?.groups] of nothing is [undefined]. *)
Theorem static_route_params_undefined `{Platform} (c : Copy)
    (before after : list (string * Handler)) (p : string) (h : Handler)
    (r0 : Router) (url : URL) (event : NavigateEvent) :
  includes p ":" = false ->
  Forall (fun call => fst call <> p) after ->
  completion (add_all (before ++ (p, h) :: after) r0) = Normal tt ->
  pathname url = p ->
  match_ c url event (final (add_all (before ++ (p, h) :: after) r0)) =
    (Normal tt,
     final (add_all (before ++ (p, h) :: after) r0),
     [Intercept event {| d_route := {| params := None; url := url |}; d_handler := h |}]) /\
  forall later : Router,
    effects (intercept_handler c
               {| d_route := {| params := None; url := url |}; d_handler := h |} later) =
      DispatchEvent (RouterEvent_make c "change"
                       (DetailRoute {| params := None; url := url |}))
        :: resolver_call (resolveRouteChange later) {| params := None; url := url |}
        ++ [CallHandler h {| params := None; url := url |}].
Proof.
  intros Hs Hafter Hn Hp. subst p.
  pose proof (add_all_latest before after _ h r0 Hs Hafter Hn) as Hlook.
  split.
  - rewrite (match_found c url event _ {| mr_match := None; mr_handler := h |}).
    + reflexivity.
    + rewrite (getRoute_static _ _ h Hlook). reflexivity.
  - intros later. rewrite intercept_handler_run. reflexivity.
Qed.

Lemma static_route_params_undefined_witness :
  includes "/about" ":" = false /\
  pathname (Examples.url_of "/about") = "/about" /\
  effects (match_ Copy1 (Examples.url_of "/about")
             (Examples.navigation "https://site/about")
             (final (add_all [("/", Fn 1); ("/posts/:id", Fn 2); ("/about", Fn 3);
                              ("/contact", Fn 4)] new_router))) =
    [Intercept (Examples.navigation "https://site/about")
       {| d_route := {| params := None; url := Examples.url_of "/about" |};
                  d_handler := Fn 3 |}].
Proof.
  split; [reflexivity|]. split; [reflexivity|].
  assert (Hafter : Forall (fun call : string * Handler => fst call <> "/about")
                     [("/contact", Fn 4)]).
  { repeat constructor. discriminate. }
  destruct (static_route_params_undefined (H := Browser.site) Copy1
              [("/", Fn 1); ("/posts/:id", Fn 2)] [("/contact", Fn 4)]
              "/about" (Fn 3) new_router (Examples.url_of "/about")
              (Examples.navigation "https://site/about")
              eq_refl Hafter eq_refl eq_refl) as [Hm _].
  exact (f_equal snd Hm).
Defined.

(** C1 as stated fails: after [add ("/about", h)] a match on [/about] hands
    out a record whose [params] is not the empty mapping. *)
Lemma static_route_params_not_empty :
  exists d : Deferred,
    effects (match_ Copy1 (Examples.url_of "/about")
             (Examples.navigation "https://site/about")
               (final (add (H := Browser.site) "/about" (Fn 1) new_router))) =
      [Intercept (Examples.navigation "https://site/about") d] /\
    d_handler d = Fn 1 /\
    params (d_route d) <> Some ∅.
Proof.
  eexists. split; [reflexivity|]. split; [reflexivity|]. discriminate.
Qed.

(** ** Precedence *)

(** C2.  [#getRoute] answers from the static mapping, by pathname, when the
    pathname is registered there, whatever the patterns.  Otherwise it
    answers with the first entry of the pattern sequence whose matcher
    accepts the URL, with that entry's handler and the groups its matcher
    extracts, and an entry behind an accepting one is never the answer; when
    no entry accepts there is no route. *)
Theorem getRoute_precedence (c : Copy) (url : URL) (event : NavigateEvent)
    (this : Router) :
  (forall h,
     staticRoutes this !! pathname url = Some h ->
     completion (getRoute url this) =
       Normal (Some {| mr_match := None; mr_handler := h |})) /\
  (staticRoutes this !! pathname url = None ->
   (forall before r after,
      dynamicRoutes this = before ++ r :: after ->
      Forall (rejects url) before ->
      test (pattern r) url = true ->
      completion (getRoute url this) =
        Normal (Some {| mr_match := exec (pattern r) url; mr_handler := handler r |}) /\
      forall m,
        exec (pattern r) url = Some m ->
        effects (match_ c url event this) =
          [Intercept event {| d_route := {| params := Some (groups (res_pathname m));
                                      url := url |};
                        d_handler := handler r |}]) /\
   (forall mr,
      completion (getRoute url this) = Normal (Some mr) ->
      exists before r after,
        dynamicRoutes this = before ++ r :: after /\
        Forall (rejects url) before /\
        test (pattern r) url = true /\
        mr = {| mr_match := exec (pattern r) url; mr_handler := handler r |}) /\
   (Forall (rejects url) (dynamicRoutes this) ->
    completion (getRoute url this) = Normal None)).
Proof.
  split.
  - intros h Hs. rewrite (getRoute_static _ _ h Hs). reflexivity.
  - intros Hs. rewrite (getRoute_dynamic _ _ Hs). unfold completion. simpl.
    split; [|split].
    + intros before r after Hdyn Hbefore Hr.
      assert (Hscan : scan (dynamicRoutes this) url =
                Some {| mr_match := exec (pattern r) url; mr_handler := handler r |}).
      { rewrite Hdyn. apply scan_first; assumption. }
      split; [f_equal; exact Hscan|].
      intros m Hm.
      rewrite (match_found c url event this
                 {| mr_match := exec (pattern r) url; mr_handler := handler r |}).
      * unfold route_of. simpl. rewrite Hm. reflexivity.
      * rewrite (getRoute_dynamic _ _ Hs), Hscan. reflexivity.
    + intros mr [= Hscan]. apply scan_some, Hscan.
    + intros Hall. f_equal. apply scan_none, Hall.
Qed.

Lemma getRoute_precedence_witness :
  effects (match_ Copy1 (Examples.url_of "/posts/42")
             (Examples.navigation "https://site/posts/42")
             (final (add_all [("/", Fn 1); ("/posts/:id", Fn 2); ("/posts/:slug", Fn 3)]
                       new_router))) =
    [Intercept (Examples.navigation "https://site/posts/42")
       {| d_route := {| params := Some {[ "id" := Some "42" ]};
                                url := Examples.url_of "/posts/42" |};
                  d_handler := Fn 2 |}].
Proof.
  destruct (getRoute_precedence Copy1 (Examples.url_of "/posts/42")
              (Examples.navigation "https://site/posts/42")
              (final (add_all [("/", Fn 1); ("/posts/:id", Fn 2); ("/posts/:slug", Fn 3)]
                        new_router))) as [_ Hdyn].
  assert (Hs : staticRoutes
                 (final (add_all [("/", Fn 1); ("/posts/:id", Fn 2);
                                  ("/posts/:slug", Fn 3)] new_router))
               !! pathname (Examples.url_of "/posts/42") = None)
    by (vm_compute; reflexivity).
  destruct (Hdyn Hs) as [Hfirst _].
  destruct (Hfirst [] _ _ eq_refl (List.Forall_nil _) eq_refl) as [_ Hm].
  rewrite (Hm _ eq_refl). vm_compute. reflexivity.
Defined.

(** ** Registration *)

(** C3.  [add] files a path containing [':'] at the end of the pattern
    sequence, whatever is already there (registering it again gives a second
    entry behind the first), and any other path in the static mapping; a
    second [add] of a static path replaces the first, and a match on that
    path calls the second handler and no other.  The pattern case is the one
    in which the template compiles. *)
Theorem add_classifies `{Platform} (c : Copy) (route : string) (h h' : Handler)
    (this : Router) :
  (forall p,
     includes route ":" = true ->
     URLPattern_new route = Normal p ->
     add route h this =
       (Normal tt,
        {| staticRoutes := staticRoutes this;
           dynamicRoutes :=
             dynamicRoutes this ++ [{| route := route; pattern := p; handler := h |}];
           resolveRouteChange := resolveRouteChange this |},
        []) /\
     dynamicRoutes (final (add route h' (final (add route h this)))) =
       dynamicRoutes this ++ [{| route := route; pattern := p; handler := h |};
                              {| route := route; pattern := p; handler := h' |}]) /\
  (includes route ":" = false ->
   add route h this =
     (Normal tt,
      {| staticRoutes := <[route := h]> (staticRoutes this);
         dynamicRoutes := dynamicRoutes this;
         resolveRouteChange := resolveRouteChange this |},
      []) /\
   forall url event,
     pathname url = route ->
     exists d,
       effects (match_ c url event (final (add route h' (final (add route h this))))) =
         [Intercept event d] /\
       forall later,
         handlers_called (effects (intercept_handler c d later)) = [h']).
Proof.
  split.
  - intros p Hd Hp. rewrite (add_dynamic route h this p Hd Hp). split; [reflexivity|].
    rewrite (add_dynamic route h' _ p Hd Hp). simpl. rewrite <- app_assoc. reflexivity.
  - intros Hs. rewrite (add_static route h this Hs). split; [reflexivity|].
    intros url event Hurl. rewrite (add_static route h' _ Hs). simpl.
    exists {| d_route := {| params := None; url := url |}; d_handler := h' |}.
    split.
    + rewrite (match_found c url event _ {| mr_match := None; mr_handler := h' |});
        [reflexivity|].
      rewrite (getRoute_static _ _ h'); [reflexivity|].
      simpl. rewrite Hurl. apply lookup_insert_eq.
    + intros later. rewrite intercept_handler_run. simpl.
      destruct (resolveRouteChange later); reflexivity.
Qed.

Lemma add_classifies_witness :
  includes "/posts/:id" ":" = true /\
  includes "/about" ":" = false /\
  length (dynamicRoutes
            (final (add "/posts/:id" (Fn 2)
                      (final (add "/posts/:id" (Fn 1) new_router))))) = 2 /\
  exists d,
    effects (match_ Copy1 (Examples.url_of "/about")
             (Examples.navigation "https://site/about")
               (final (add "/about" (Fn 2)
                         (final (add "/about" (Fn 1) new_router))))) = [Intercept (Examples.navigation "https://site/about") d] /\
    handlers_called (effects (intercept_handler Copy1 d new_router)) = [Fn 2].
Proof.
  split; [reflexivity|]. split; [reflexivity|]. split.
  - destruct (add_classifies Copy1 "/posts/:id" (Fn 1) (Fn 2) new_router) as [Hd _].
    destruct (URLPattern_new "/posts/:id") as [p|e] eqn:Hp; [|discriminate].
    destruct (Hd p eq_refl eq_refl) as [_ ->]. reflexivity.
  - destruct (add_classifies Copy1 "/about" (Fn 1) (Fn 2) new_router) as [_ Hs].
    destruct (Hs eq_refl) as [_ Hm].
    destruct (Hm (Examples.url_of "/about")
                 (Examples.navigation "https://site/about") eq_refl) as (d & Hd & Hcalls).
    exists d. split; [exact Hd | exact (Hcalls new_router)].
Defined.

(** C7.  When the template of a path containing [':'] does not compile,
    [add] throws the compiler's error and the router is as it was: nothing
    is added to either table, seen from the method and from the world. *)
Theorem add_compile_failure `{Platform} (c : Copy) (route : string) (h : Handler)
    (e : JSError) (this : Router) (w : World) :
  includes route ":" = true ->
  URLPattern_new route = Throw e ->
  add route h this = (Throw e, this, []) /\
  step c w (Add route h) = w.
Proof.
  intros Hd He. split.
  - apply add_throws; assumption.
  - simpl. unfold call. rewrite (add_throws route h (router w) e Hd He). simpl.
    destruct w; reflexivity.
Qed.

Lemma add_compile_failure_witness :
  includes "/posts/:" ":" = true /\
  URLPattern_new "/posts/:" = Throw (TypeError "Invalid pathname pattern") /\
  add "/posts/:" (Fn 1) new_router =
    (Throw (TypeError "Invalid pathname pattern"), new_router, []).
Proof.
  split; [reflexivity|]. split; [reflexivity|].
  exact (proj1 (add_compile_failure Copy1 "/posts/:" (Fn 1)
                  (TypeError "Invalid pathname pattern") new_router new_world
                  eq_refl eq_refl)).
Defined.

(** ** Match and dispatch *)

(** C4.  When neither the static mapping nor any pattern answers for the
    URL, [match] dispatches one ['404'] event whose detail is the URL it was
    given and does nothing else: no ['change'] event, no handler call, no
    [event.intercept]. *)
Theorem match_not_found_emits_404 (c : Copy) (url : URL) (event : NavigateEvent)
    (this : Router) :
  staticRoutes this !! pathname url = None ->
  Forall (rejects url) (dynamicRoutes this) ->
  match_ c url event this =
    (Normal tt, this, [DispatchEvent (RouterEvent_make c "404" (DetailURL url))]) /\
  events_named "404" (effects (match_ c url event this)) =
    [RouterEvent_make c "404" (DetailURL url)] /\
  events_named "change" (effects (match_ c url event this)) = [] /\
  handlers_called (effects (match_ c url event this)) = [] /\
  claimed (effects (match_ c url event this)) = [].
Proof.
  intros Hs Hall.
  assert (Hm : match_ c url event this =
    (Normal tt, this, [DispatchEvent (RouterEvent_make c "404" (DetailURL url))])).
  { apply match_not_found. rewrite (getRoute_dynamic _ _ Hs).
    apply scan_none in Hall. rewrite Hall. reflexivity. }
  rewrite Hm. repeat split; destruct c; reflexivity.
Qed.

Lemma match_not_found_emits_404_witness :
  effects (match_ Copy1 (Examples.url_of "/missing")
             (Examples.navigation "https://site/missing")
             (final (add_all [("/", Fn 1); ("/posts/:id", Fn 2)] new_router))) =
    [DispatchEvent {| name := "404";
                      detail := DetailURL (Examples.url_of "/missing");
                      options := None |}].
Proof.
  assert (Hs : staticRoutes (final (add_all [("/", Fn 1); ("/posts/:id", Fn 2)] new_router))
               !! pathname (Examples.url_of "/missing") = None)
    by (vm_compute; reflexivity).
  assert (Hall : Forall (rejects (Examples.url_of "/missing"))
                   (dynamicRoutes
                      (final (add_all [("/", Fn 1); ("/posts/:id", Fn 2)] new_router)))).
  { repeat constructor. }
  destruct (match_not_found_emits_404 Copy1 _
              (Examples.navigation "https://site/missing") _ Hs Hall) as [Hm _].
  exact (f_equal snd Hm).
Defined.

(** C6.  After a successful match the closure handed to [event.intercept],
    whenever the host runs it, dispatches ['change'] with the matched-route
    record, then, if the slot holds a resolver, calls it with
    [{ value: route, done: false }] and empties the slot, and only then calls
    the registered handler with the record.  The order is that of the calls
    and of the router's states: whatever the listeners and the handler do,
    the listeners run first, the resolver called is the one in the slot once
    they have run, and the handler starts on a router whose slot is empty;
    what the handler leaves in the router is what the closure leaves. *)
Theorem change_then_resolve_then_handler (c : Copy) (url : URL)
    (event : NavigateEvent) (this : Router)
    (mr : MatchedRoute) :
  completion (getRoute url this) = Normal (Some mr) ->
  effects (match_ c url event this) =
    [Intercept event {| d_route := route_of url mr; d_handler := mr_handler mr |}] /\
  (forall later : Router,
    intercept_handler c {| d_route := route_of url mr; d_handler := mr_handler mr |} later =
      (Normal tt,
       {| staticRoutes := staticRoutes later;
          dynamicRoutes := dynamicRoutes later;
          resolveRouteChange := None |},
       DispatchEvent {| name := "change";
                        detail := DetailRoute (route_of url mr);
                        options := options (RouterEvent_make c "change"
                                              (DetailRoute (route_of url mr))) |}
         :: match resolveRouteChange later with
            | Some resolve =>
                [CallResolver resolve {| value := route_of url mr; done := false |}]
            | None => []
            end
         ++ [CallHandler (mr_handler mr) (route_of url mr)])) /\
  (forall (A : Type) (listeners : RouterEvent -> M unit) (handler : Route -> M A)
          (later : Router),
     intercept_body c (route_of url mr) listeners handler later =
       (completion
          (handler (route_of url mr)
             (slot_cleared
                (final (listeners (RouterEvent_make c "change"
                                     (DetailRoute (route_of url mr))) later)))),
        final
          (handler (route_of url mr)
             (slot_cleared
                (final (listeners (RouterEvent_make c "change"
                                     (DetailRoute (route_of url mr))) later)))),
        DispatchEvent (RouterEvent_make c "change" (DetailRoute (route_of url mr)))
          :: effects (listeners (RouterEvent_make c "change"
                                   (DetailRoute (route_of url mr))) later)
          ++ resolver_call
               (resolveRouteChange
                  (final (listeners (RouterEvent_make c "change"
                                       (DetailRoute (route_of url mr))) later)))
               (route_of url mr)
          ++ effects
               (handler (route_of url mr)
                  (slot_cleared
                     (final (listeners (RouterEvent_make c "change"
                                          (DetailRoute (route_of url mr))) later)))))).
Proof.
  intros Hfound. split; [|split].
  - rewrite (match_found c url event this mr Hfound). reflexivity.
  - intros later. rewrite intercept_handler_run. reflexivity.
  - intros A listeners handler later.
    unfold intercept_body, emit_with, dispatchEvent, bind, get, perform,
      set_resolveRouteChange, put, ret, slot_cleared.
    destruct (listeners (RouterEvent_make c "change" (DetailRoute (route_of url mr)))
                later) as [[k1 r1] out1].
    destruct r1 as [s dy [r|]]; simpl;
      destruct (handler (route_of url mr) _) as [[k3 r3] out3]; simpl;
      rewrite ?app_nil_r, <- ?app_assoc; reflexivity.
Qed.

Lemma change_then_resolve_then_handler_witness :
  effects (intercept_handler Copy1
             {| d_route := {| params := None; url := Examples.url_of "/" |};
                d_handler := Fn 1 |}
             {| staticRoutes := {[ "/" := Fn 1 ]}; dynamicRoutes := [];
                resolveRouteChange := Some (ResolveOf 0) |}) =
    [DispatchEvent {| name := "change";
                      detail := DetailRoute {| params := None; url := Examples.url_of "/" |};
                      options := None |};
     CallResolver (ResolveOf 0)
       {| value := {| params := None; url := Examples.url_of "/" |}; done := false |};
     CallHandler (Fn 1) {| params := None; url := Examples.url_of "/" |}] /\
  resolveRouteChange
    (final (intercept_body Copy1 {| params := None; url := Examples.url_of "/" |}
              (fun _ => ret tt)
              (fun _ => set_resolveRouteChange (Some (ResolveOf 1)))
              {| staticRoutes := {[ "/" := Fn 1 ]}; dynamicRoutes := [];
                 resolveRouteChange := Some (ResolveOf 0) |})) = Some (ResolveOf 1).
Proof.
  destruct (change_then_resolve_then_handler Copy1 (Examples.url_of "/")
              (Examples.navigation "https://site/")
              {| staticRoutes := {[ "/" := Fn 1 ]}; dynamicRoutes := [];
                 resolveRouteChange := Some (ResolveOf 0) |}
              {| mr_match := None; mr_handler := Fn 1 |}) as (_ & Hrun & Hbody).
  - vm_compute. reflexivity.
  - split.
    + exact (f_equal snd (Hrun {| staticRoutes := {[ "/" := Fn 1 ]}; dynamicRoutes := [];
                                  resolveRouteChange := Some (ResolveOf 0) |})).
    + change {| params := None; url := Examples.url_of "/" |}
        with (route_of (Examples.url_of "/") {| mr_match := None; mr_handler := Fn 1 |}).
      rewrite Hbody. reflexivity.
Defined.

(** ** The navigation bridge *)

Lemma match_effects_nonempty (c : Copy) (url : URL) (event : NavigateEvent)
    (this : Router) :
  effects (match_ c url event this) <> [].
Proof.
  destruct (completion (getRoute url this)) as [[mr|]|e] eqn:Hg.
  - rewrite (match_found c url event this mr Hg). discriminate.
  - rewrite (match_not_found c url event this Hg). discriminate.
  - unfold getRoute in Hg. unfold_m.
    destruct (staticRoutes this !! pathname url); discriminate.
Qed.

(** What the listener of either copy tests before it parses the URL. *)
Lemma navigate_listener_filter `{Platform} (c : Copy) (event : NavigateEvent)
    (this : Router) :
  truthy (canIntercept event) = false \/
  truthy (hashChange event) = true \/
  truthy (prop event (download_property c)) = true ->
  navigate_listener c event this = (Normal tt, this, []).
Proof.
  intros Hf. unfold navigate_listener.
  change (prop event "canIntercept") with (canIntercept event).
  change (prop event "hashChange") with (hashChange event).
  destruct Hf as [-> | [-> | ->]]; simpl; rewrite ?orb_true_r; reflexivity.
Qed.

(** A destination on another host is ignored by either copy. *)
Lemma navigate_listener_cross_origin `{Platform} (c : Copy) (event : NavigateEvent)
    (this : Router) (u : URL) :
  URL_new (destination_url event) = Normal u ->
  host u <> location_host ->
  final (navigate_listener c event this) = this /\
  effects (navigate_listener c event this) = [].
Proof.
  intros Hu Hhost. split; [apply navigate_listener_frame|].
  unfold navigate_listener.
  destruct (negb (truthy (prop event "canIntercept")) || truthy (prop event "hashChange")
            || truthy (prop event (download_property c))); [reflexivity|].
  rewrite (bind_normal _ _ this this u []); [|unfold lift; rewrite Hu; reflexivity].
  apply String.eqb_neq in Hhost. rewrite Hhost. reflexivity.
Qed.

(** The first copy ignores every navigation the filter names. *)
Lemma copy1_ignores `{Platform} (event : NavigateEvent) (this : Router) :
  truthy (canIntercept event) = false \/
  truthy (hashChange event) = true \/
  truthy (downloadRequest event) = true \/
  (exists u, URL_new (destination_url event) = Normal u /\ host u <> location_host) ->
  final (navigate_listener Copy1 event this) = this /\
  effects (navigate_listener Copy1 event this) = [].
Proof.
  intros [Hc | [Hh | [Hd | (u & Hu & Hhost)]]].
  - rewrite navigate_listener_filter by auto. split; reflexivity.
  - rewrite navigate_listener_filter by auto. split; reflexivity.
  - rewrite navigate_listener_filter; [split; reflexivity|]. right. right. exact Hd.
  - eapply navigate_listener_cross_origin; eassumption.
Qed.

(** The second copy reads a property the event does not have. *)
Lemma copy2_download_undefined (event : NavigateEvent) :
  prop event (download_property Copy2) = JUndefined.
Proof. reflexivity. Qed.

(** Apart from downloads the two copies take the same decision. *)
Lemma copies_agree_without_download `{Platform} (event : NavigateEvent) (this : Router) :
  truthy (downloadRequest event) = false ->
  effects (navigate_listener Copy1 event this) = [] <->
  effects (navigate_listener Copy2 event this) = [].
Proof.
  intros Hd. unfold navigate_listener.
  rewrite copy2_download_undefined.
  change (prop event (download_property Copy1)) with (downloadRequest event).
  rewrite Hd. change (truthy JUndefined) with false.
  destruct (negb (truthy (prop event "canIntercept")) || truthy (prop event "hashChange")
            || false); [tauto|].
  destruct (URL_new (destination_url event)) as [u|e] eqn:Hu.
  - rewrite !(bind_normal _ _ this this u []) by reflexivity.
    destruct (negb (String.eqb (host u) location_host)); [tauto|].
    split; intros Hnil; exfalso; simpl in Hnil;
      eapply match_effects_nonempty; exact Hnil.
  - rewrite !(bind_throw _ _ this this e []) by reflexivity. tauto.
Qed.

(** C5, on the second copy: a same-origin, interceptable navigation with
    [downloadRequest = true] passes the filter, which reads
    [event.downLoadRequest], and reaches [match]; with no route for it a
    ['404'] event is dispatched, with a route for it the navigation is
    claimed for that route's handler.  The first copy ignores it. *)
Theorem copy2_download_reaches_match :
  downloadRequest (Examples.download "https://site/file.zip") = JBool true /\
  effects (navigate_listener Copy1 (Examples.download "https://site/file.zip")
             new_router) = [] /\
  effects (navigate_listener Copy2 (Examples.download "https://site/file.zip")
             new_router) =
    [DispatchEvent {| name := "404";
                      detail := DetailURL (Examples.url_of "/file.zip");
                      options := Some [] |}] /\
  claimed (effects (navigate_listener Copy2 (Examples.download "https://site/file.zip")
                      (final (add "/file.zip" (Fn 1) new_router)))) =
    [{| d_route := {| params := None; url := Examples.url_of "/file.zip" |};
        d_handler := Fn 1 |}].
Proof. repeat split; vm_compute; reflexivity. Qed.

(** C9 fails on downloads: on a same-origin, interceptable navigation with a
    truthy [downloadRequest] the first copy returns before [match] and the
    second hands the navigation to [match]. *)
Theorem copies_disagree_on_download :
  truthy (downloadRequest (Examples.save_as "https://site/report")) = true /\
  effects (navigate_listener Copy1 (Examples.save_as "https://site/report")
             new_router) = [] /\
  effects (navigate_listener Copy2 (Examples.save_as "https://site/report")
             new_router) =
    effects (match_ Copy2 (Examples.url_of "/report")
               (Examples.save_as "https://site/report") new_router) /\
  effects (navigate_listener Copy2 (Examples.save_as "https://site/report")
             new_router) <> [].
Proof.
  split; [|split; [|split]].
  - reflexivity.
  - vm_compute. reflexivity.
  - vm_compute. reflexivity.
  - vm_compute. discriminate.
Qed.

(** ** Frame *)

(** C10.  [#getRoute] and [match] return the router as they found it; the
    closure run by the host changes the slot only; and in the world no step
    but a call of [add] changes the static mapping or the pattern
    sequence. *)
Theorem route_table_frame `{Platform} (c : Copy) (w : World) (a : Action) :
  is_add a = false ->
  (forall url this, final (getRoute url this) = this) /\
  (forall url event this, final (match_ c url event this) = this) /\
  (forall d this, same_table this (final (intercept_handler c d this))) /\
  same_table (router w) (router (step c w a)).
Proof.
  intros Ha. split; [|split; [|split]].
  - intros url this. apply getRoute_pure.
  - intros url event this. apply match_frame.
  - intros d this. rewrite intercept_handler_run. split; reflexivity.
  - destruct a as [route h|event| |q|]; simpl; try discriminate.
    + rewrite call_router, navigate_listener_frame. apply same_table_refl.
    + apply invoke_intercepted_table.
    + unfold iterator_request.
      match goal with |- same_table _ (router (drive ?w')) =>
        exact (drive_table w') end.
    + apply run_job_table.
Qed.

Lemma route_table_frame_witness :
  is_add InvokeIntercepted = false /\
  same_table
    (router (run Copy1 [Add "/" (Fn 1); Iterate NextRequest;
                        Navigate (Examples.navigation "https://site/")] new_world))
    (router (step Copy1
               (run Copy1 [Add "/" (Fn 1); Iterate NextRequest;
                           Navigate (Examples.navigation "https://site/")] new_world)
               InvokeIntercepted)).
Proof.
  split; [reflexivity|].
  exact (proj2 (proj2 (proj2
    (route_table_frame Copy1
       (run Copy1 [Add "/" (Fn 1); Iterate NextRequest;
                   Navigate (Examples.navigation "https://site/")] new_world)
       InvokeIntercepted eq_refl)))).
Defined.

(** ** The world around a method call *)

Lemma fold_absorb_fields (out : list Effect) (w : World) :
  generator (fold_left absorb out w) = generator w /\
  requests (fold_left absorb out w) = requests w /\
  promises (fold_left absorb out w) = promises w /\
  jobs (fold_left absorb out w) = jobs w ++ reactions_of out /\
  log (fold_left absorb out w) = log w ++ out.
Proof.
  revert w. induction out as [|e out IH]; intros w; simpl.
  - rewrite !app_nil_r. repeat split; reflexivity.
  - destruct (IH (absorb w e)) as (Hg & Hq & Hp & Hj & Hl).
    rewrite Hg, Hq, Hp, Hj, Hl.
    destruct e as [ev|[p] x|h r|ev' d]; simpl; rewrite <- ?app_assoc;
      repeat split; reflexivity.
Qed.

Lemma call_fields {A} (m : M A) (w : World) :
  generator (call m w) = generator w /\
  requests (call m w) = requests w /\
  promises (call m w) = promises w /\
  jobs (call m w) = jobs w ++ reactions_of (effects (m (router w))) /\
  log (call m w) = log w ++ effects (m (router w)).
Proof.
  unfold call. destruct (m (router w)) as [[k r] out].
  apply (fold_absorb_fields out (with_router r w)).
Qed.

Lemma call_set_slot (s : option Resolver) (w : World) :
  call (set_resolveRouteChange s) w =
    with_router {| staticRoutes := staticRoutes (router w);
                   dynamicRoutes := dynamicRoutes (router w);
                   resolveRouteChange := s |} w.
Proof. reflexivity. Qed.

(** The listener never calls a resolver. *)
Lemma navigate_listener_no_resolver `{Platform} (c : Copy) (event : NavigateEvent)
    (this : Router) :
  reactions_of (effects (navigate_listener c event this)) = [] /\
  resolver_calls (effects (navigate_listener c event this)) = [].
Proof.
  destruct (navigate_listener_effects c event this) as [-> | (u & _ & ->)].
  - split; reflexivity.
  - destruct (completion (getRoute u this)) as [[mr|]|e] eqn:Hg.
    + rewrite (match_found c u event this mr Hg). split; reflexivity.
    + rewrite (match_not_found c u event this Hg). split; reflexivity.
    + unfold getRoute in Hg. unfold_m.
      destruct (staticRoutes this !! pathname u); discriminate.
Qed.

(** ** The slot follows the iterator *)

Lemma coherent_new_world : coherent new_world.
Proof.
  unfold coherent. simpl. repeat split; try discriminate. intros p x [].
Qed.

Lemma loop_body_coherent (w : World) : coherent w -> coherent (loop_body w).
Proof.
  intros (Hjobs & Hslot & _). unfold loop_body. rewrite call_set_slot.
  unfold coherent. simpl. split; [|split; [|split]].
  - intros p x Hin. apply Hjobs in Hin. lia.
  - intros p [= <-]. lia.
  - lia.
  - intros x Hin. apply Hjobs in Hin. lia.
Qed.

Lemma finally_block_coherent (w : World) : coherent w -> coherent (finally_block w).
Proof.
  intros (Hjobs & _ & _). unfold finally_block. rewrite call_set_slot.
  unfold coherent. simpl. repeat split; [exact Hjobs | discriminate].
Qed.

Lemma completed_coherent (w : World) :
  coherent w -> resolveRouteChange (router w) = None ->
  coherent (with_generator Completed [] w).
Proof.
  intros (Hjobs & Hslot & _) Hnone. unfold coherent. simpl.
  repeat split; assumption.
Qed.

Lemma drive_coherent (w : World) :
  coherent w -> coherent (drive w).
Proof.
  intros Hw. unfold drive. destruct (requests w) as [|q rest] eqn:Hq; [exact Hw|].
  destruct (generator w) eqn:Hg; try exact Hw.
  - destruct q; [apply loop_body_coherent, Hw| |];
      apply completed_coherent; try exact Hw;
      destruct Hw as (_ & _ & Hs); rewrite Hg in Hs; exact Hs.
  - destruct q; [apply loop_body_coherent, Hw | | apply finally_block_coherent, Hw].
    destruct Hw as (Hjobs & Hslot & Hs). rewrite Hg in Hs.
    unfold coherent. simpl. repeat split; try assumption.
    intros p x Hin. apply in_app_or in Hin. destruct Hin as [Hin | [Hin | []]].
    + apply Hjobs in Hin. exact Hin.
    + discriminate.
  - apply completed_coherent; [exact Hw|].
    destruct Hw as (_ & _ & Hs). rewrite Hg in Hs. exact Hs.
Qed.

Lemma iterator_request_coherent (q : Request) (w : World) :
  coherent w -> coherent (iterator_request q w).
Proof. intros Hw. apply drive_coherent. exact Hw. Qed.

Lemma run_job_coherent (w : World) : coherent w -> coherent (run_job w).
Proof.
  intros Hw. unfold run_job. destruct (jobs w) as [|j rest] eqn:Hj; [exact Hw|].
  assert (Hrest : coherent (with_jobs rest w)).
  { destruct Hw as (Hjobs & Hslot & Hs). unfold coherent. simpl.
    rewrite Hj in Hjobs. split; [|split; [exact Hslot|]].
    - intros p x Hin. apply (Hjobs p x). right. exact Hin.
    - destruct (generator w); try exact Hs.
      destruct Hs as [Hp Hs]. split; [exact Hp|].
      intros x Hin. apply (Hs x). rewrite Hj. right. exact Hin. }
  destruct j as [p x|]; simpl.
  - destruct (generator w) as [|p'| | |] eqn:Hg; try exact Hrest.
    destruct (Nat.eqb p p') eqn:Hpp; [|exact Hrest].
    apply Nat.eqb_eq in Hpp. subst p'.
    apply drive_coherent.
    destruct Hw as (Hjobs & Hslot & Hs). rewrite Hg in Hs. destruct Hs as [_ Hs].
    unfold coherent. simpl. split; [|split; [exact Hslot|]].
    + intros p0 x0 Hin. apply (Hjobs p0 x0). rewrite Hj. right. exact Hin.
    + apply (Hs x). rewrite Hj. left. reflexivity.
  - destruct (generator w) eqn:Hg; try exact Hrest.
    apply finally_block_coherent. exact Hrest.
Qed.

Lemma invoke_intercepted_coherent (c : Copy) (w : World) :
  coherent w -> coherent (invoke_intercepted c w).
Proof.
  intros (Hjobs & Hslot & Hs). unfold invoke_intercepted.
  destruct (intercepted w) as [|d rest]; [repeat split; assumption|].
  match goal with |- coherent (call ?m ?w') =>
    destruct (call_fields m w') as (Hg & _ & Hp & Hj & _);
    pose proof (call_router m w') as Hr
  end.
  simpl in Hg, Hp, Hj, Hr. rewrite intercept_handler_run in Hj, Hr. simpl in Hj, Hr.
  unfold coherent. rewrite Hg, Hp, Hj, Hr. simpl.
  assert (Hnew : forall p x,
            In (PromiseReaction p x)
               (jobs w ++ reactions_of (resolver_call (resolveRouteChange (router w))
                                          (d_route d) ++
                                        [CallHandler (d_handler d) (d_route d)])) ->
            p < promises w).
  { intros p x Hin. apply in_app_or in Hin. destruct Hin as [Hin|Hin].
    - apply (Hjobs p x Hin).
    - destruct (resolveRouteChange (router w)) as [[p0]|] eqn:Hslot0; simpl in Hin.
      + destruct Hin as [[= <- <-]|[]]. apply Hslot. reflexivity.
      + destruct Hin. }
  split; [exact Hnew|]. split; [discriminate|].
  destruct (generator w); try reflexivity.
  destruct Hs as [Hp0 _]. split; [exact Hp0 | reflexivity].
Qed.

(** A method that calls no resolver and leaves the slot alone keeps the
    world coherent. *)
Lemma call_coherent {A} (m : M A) (w : World) :
  reactions_of (effects (m (router w))) = [] ->
  resolveRouteChange (final (m (router w))) = resolveRouteChange (router w) ->
  coherent w -> coherent (call m w).
Proof.
  intros Hno Hsame (Hjobs & Hslot & Hs).
  destruct (call_fields m w) as (Hg & _ & Hp & Hj & _).
  pose proof (call_router m w) as Hr.
  unfold coherent. rewrite Hg, Hp, Hj, Hr, Hno, app_nil_r, Hsame.
  repeat split; assumption.
Qed.

Lemma step_coherent `{Platform} (c : Copy) (w : World) (a : Action) :
  coherent w -> coherent (step c w a).
Proof.
  intros Hw. destruct a as [route h|event| |q|]; simpl.
  - apply call_coherent; [|apply add_quiet|exact Hw].
    destruct (add_quiet route h (router w)) as [-> _]. reflexivity.
  - apply call_coherent; [apply navigate_listener_no_resolver| |exact Hw].
    rewrite navigate_listener_frame. reflexivity.
  - apply invoke_intercepted_coherent, Hw.
  - apply iterator_request_coherent, Hw.
  - apply run_job_coherent, Hw.
Qed.

Lemma run_coherent `{Platform} (c : Copy) (acts : list Action) (w : World) :
  coherent w -> coherent (run c acts w).
Proof.
  revert w. induction acts as [|a acts IH]; intros w Hw; simpl; [exact Hw|].
  apply IH, step_coherent, Hw.
Qed.

(** ** After the iteration *)

Lemma stopped_step `{Platform} (c : Copy) (w : World) (a : Action) :
  stopped w ->
  stopped (step c w a) /\
  exists out, log (step c w a) = log w ++ out /\ resolver_calls out = [].
Proof.
  intros [Hslot Hgen]. destruct a as [route h|event| |q|]; simpl.
  - destruct (call_fields (add route h) w) as (Hg & _ & _ & _ & Hl).
    pose proof (call_router (add route h) w) as Hr.
    destruct (add_quiet route h (router w)) as [Hout Hsame].
    split; [split|].
    + rewrite Hr, Hsame. exact Hslot.
    + rewrite Hg. exact Hgen.
    + exists []. rewrite Hl, Hout. split; reflexivity.
  - destruct (call_fields (navigate_listener c event) w) as (Hg & _ & _ & _ & Hl).
    pose proof (call_router (navigate_listener c event) w) as Hr.
    split; [split|].
    + rewrite Hr, navigate_listener_frame. exact Hslot.
    + rewrite Hg. exact Hgen.
    + eexists. split; [exact Hl|]. apply navigate_listener_no_resolver.
  - unfold invoke_intercepted. destruct (intercepted w) as [|d rest].
    + split; [split; assumption|]. exists []. rewrite app_nil_r. split; reflexivity.
    + match goal with |- context [call ?m ?w'] =>
        destruct (call_fields m w') as (Hg & _ & _ & _ & Hl);
        pose proof (call_router m w') as Hr
      end.
      simpl in Hg, Hl, Hr. rewrite intercept_handler_run in Hl, Hr. simpl in Hl, Hr.
      split; [split|].
      * rewrite Hr. reflexivity.
      * rewrite Hg. exact Hgen.
      * eexists. split; [exact Hl|]. rewrite Hslot. reflexivity.
  - unfold iterator_request, drive. simpl.
    destruct (requests w ++ [q]) as [|q0 rest] eqn:Hq.
    + split; [split; assumption|]. exists []. rewrite app_nil_r. split; reflexivity.
    + destruct Hgen as [Hgen|Hgen]; rewrite Hgen; simpl.
      * split; [split; [exact Hslot | left; reflexivity]|].
        exists []. rewrite app_nil_r. destruct q0; split; reflexivity.
      * split; [split; [exact Hslot | right; reflexivity]|].
        exists []. rewrite app_nil_r. split; reflexivity.
  - unfold run_job. destruct (jobs w) as [|j rest].
    + split; [split; assumption|]. exists []. rewrite app_nil_r. split; reflexivity.
    + destruct Hgen as [Hgen|Hgen]; simpl; rewrite Hgen; destruct j as [p x|].
      * split; [split; [exact Hslot | left; exact Hgen]|].
        exists []. rewrite app_nil_r. split; reflexivity.
      * split; [split; [exact Hslot | left; exact Hgen]|].
        exists []. rewrite app_nil_r. split; reflexivity.
      * split; [split; [exact Hslot | right; exact Hgen]|].
        exists []. rewrite app_nil_r. split; reflexivity.
      * split; [split; [reflexivity | left; reflexivity]|].
        exists []. rewrite app_nil_r. split; reflexivity.
Qed.

Lemma resolver_calls_app (out out' : list Effect) :
  resolver_calls (out ++ out') = resolver_calls out ++ resolver_calls out'.
Proof. unfold resolver_calls. apply omap_app. Qed.

Lemma stopped_run `{Platform} (c : Copy) (acts : list Action) (w : World) :
  stopped w ->
  stopped (run c acts w) /\
  exists out, log (run c acts w) = log w ++ out /\ resolver_calls out = [].
Proof.
  revert w. induction acts as [|a acts IH]; intros w Hw; simpl.
  - split; [exact Hw|]. exists []. rewrite app_nil_r. split; reflexivity.
  - destruct (stopped_step c w a Hw) as (Hw' & out1 & Hl1 & Hr1).
    destruct (IH _ Hw') as (Hw'' & out2 & Hl2 & Hr2).
    split; [exact Hw''|]. exists (out1 ++ out2).
    rewrite Hl2, Hl1, <- app_assoc, resolver_calls_app, Hr1, Hr2.
    split; reflexivity.
Qed.

Lemma drive_settled (w : World) : settled (drive w).
Proof.
  unfold drive, settled. destruct (requests w) as [|q rest] eqn:Hq.
  - rewrite Hq. destruct (generator w); auto.
  - destruct (generator w) eqn:Hg; try (rewrite Hg; exact I);
      destruct q; simpl; auto.
Qed.

Lemma call_settled {A} (m : M A) (w : World) : settled w -> settled (call m w).
Proof.
  intros Hw. destruct (call_fields m w) as (Hg & Hq & _).
  unfold settled. rewrite Hg, Hq. exact Hw.
Qed.

Lemma step_settled `{Platform} (c : Copy) (w : World) (a : Action) :
  settled w -> settled (step c w a).
Proof.
  intros Hw. destruct a as [route h|event| |q|]; simpl.
  - apply call_settled, Hw.
  - apply call_settled, Hw.
  - unfold invoke_intercepted. destruct (intercepted w); [exact Hw|].
    apply call_settled. exact Hw.
  - apply drive_settled.
  - unfold run_job. destruct (jobs w) as [|[p x|] rest]; [exact Hw| |]; simpl.
    + destruct (generator w) eqn:Hg; try (unfold settled in *; simpl; rewrite Hg in *; exact Hw).
      destruct (Nat.eqb p p0); [apply drive_settled|].
      unfold settled. simpl. rewrite Hg. exact I.
    + destruct (generator w) eqn:Hg; try (unfold settled in *; simpl; rewrite Hg in *; exact Hw).
      reflexivity.
Qed.

Lemma run_settled `{Platform} (c : Copy) (acts : list Action) (w : World) :
  settled w -> settled (run c acts w).
Proof.
  revert w. induction acts as [|a acts IH]; intros w Hw; simpl; [exact Hw|].
  apply IH, step_settled, Hw.
Qed.

(** Abandoning with no pull pending stops the iterator with the slot empty. *)
Lemma abandon_stops (q : Request) (w : World) :
  coherent w ->
  settled w ->
  abandons q = true ->
  pull_pending w = false ->
  stopped (iterator_request q w).
Proof.
  intros (_ & _ & Hs) Hset Hq Hp. unfold pull_pending in Hp. unfold settled in Hset.
  unfold iterator_request, drive, stopped. simpl.
  destruct (generator w) eqn:Hg; try discriminate.
  - rewrite Hset. simpl. destruct q; try discriminate; simpl; auto.
  - destruct (requests w ++ [q]); simpl; rewrite ?Hg; auto.
  - rewrite Hset. simpl. destruct q; try discriminate; simpl; auto.
  - rewrite Hset. simpl. destruct q; simpl; auto.
Qed.

(** ** Abandoning the iteration *)

(** Stopping with no pull pending.  In a world reached from a fresh router,
    when the consumer calls [return ()] or [throw ()] while none of its
    pulls is pending, the slot is empty once the request returns (it was
    empty before: the last match emptied it), a [match] on the router then
    completes normally, the closure it hands to the host completes normally
    and calls no resolver, and no resolver is ever called again. *)
Theorem abandon_without_pending_pull `{Platform} (c : Copy) (acts later : list Action)
    (q : Request) :
  abandons q = true ->
  pull_pending (run c acts new_world) = false ->
  resolveRouteChange (router (step c (run c acts new_world) (Iterate q))) = None /\
  (forall url event,
     completion (match_ c url event (router (step c (run c acts new_world) (Iterate q)))) =
       Normal tt) /\
  (forall d,
     completion (intercept_handler c d
                   (router (step c (run c acts new_world) (Iterate q)))) = Normal tt /\
     resolver_calls (effects (intercept_handler c d
                                (router (step c (run c acts new_world) (Iterate q))))) =
       []) /\
  exists out,
    log (run c later (step c (run c acts new_world) (Iterate q))) =
      log (step c (run c acts new_world) (Iterate q)) ++ out /\
    resolver_calls out = [].
Proof.
  intros Hq Hp.
  assert (Hstop : stopped (step c (run c acts new_world) (Iterate q))).
  { simpl. apply abandon_stops; try assumption.
    - apply run_coherent, coherent_new_world.
    - apply run_settled. reflexivity. }
  pose proof Hstop as [Hslot _].
  split; [exact Hslot|]. split; [|split].
  - intros url event.
    destruct (completion (getRoute url (router (step c (run c acts new_world) (Iterate q)))))
      as [[mr|]|e] eqn:Hg.
    + rewrite (match_found c url event _ mr Hg). reflexivity.
    + rewrite (match_not_found c url event _ Hg). reflexivity.
    + unfold getRoute in Hg. unfold_m.
      destruct (staticRoutes _ !! pathname url); discriminate.
  - intros d. rewrite intercept_handler_run, Hslot. split; reflexivity.
  - apply (stopped_run c later _ Hstop).
Qed.

Lemma abandon_without_pending_pull_witness :
  abandons ReturnRequest = true /\
  pull_pending (run Copy1 [Add "/" (Fn 1); Iterate NextRequest;
                           Navigate (Examples.navigation "https://site/");
                           InvokeIntercepted; Microtask] new_world) = false /\
  resolveRouteChange
    (router (step Copy1
               (run Copy1 [Add "/" (Fn 1); Iterate NextRequest;
                           Navigate (Examples.navigation "https://site/");
                           InvokeIntercepted; Microtask] new_world)
               (Iterate ReturnRequest))) = None.
Proof.
  split; [reflexivity|]. split; [reflexivity|].
  exact (proj1 (abandon_without_pending_pull Copy1
                  [Add "/" (Fn 1); Iterate NextRequest;
                   Navigate (Examples.navigation "https://site/");
                   InvokeIntercepted; Microtask]
                  [Navigate (Examples.navigation "https://site/"); InvokeIntercepted]
                  ReturnRequest eq_refl eq_refl)).
Defined.

(** * Further properties *)

(** ** Construction *)

(** X1.  The constructor returns a router, with empty tables and an empty
    slot, exactly when [window.navigation] and [URLPattern] are both there;
    otherwise it throws, and when both are missing the error is the one
    about the Navigation API. *)
Theorem constructor_requires_both (c : Copy) (g : Globals) :
  (constructor c g = Normal new_router <->
   window_defined g = true /\ navigation_defined g = true /\
   URLPattern_defined g = true) /\
  (forall r, constructor c g = Normal r -> r = new_router) /\
  (window_defined g && navigation_defined g = false ->
   constructor c g =
     Throw (Error match c with
                  | Copy1 => "Navigation API unavailable"
                  | Copy2 => "navigation api unavailable"
                  end)) /\
  (window_defined g && navigation_defined g = true ->
   URLPattern_defined g = false ->
   constructor c g =
     Throw (Error match c with
                  | Copy1 => "URLPattern API unavailable"
                  | Copy2 => "URLPattern api unavailable"
                  end)).
Proof.
  unfold constructor.
  destruct g as [[] [] []]; simpl; repeat split;
    try discriminate; try tauto; try congruence;
    intros; try (destruct H as (? & ? & ?)); discriminate.
Qed.

Lemma constructor_requires_both_witness :
  constructor Copy2
    {| window_defined := true; navigation_defined := false; URLPattern_defined := false |} =
  Throw (Error "navigation api unavailable").
Proof.
  exact (proj1 (proj2 (proj2 (constructor_requires_both Copy2
    {| window_defined := true; navigation_defined := false;
       URLPattern_defined := false |}))) eq_refl).
Defined.

(** ** The navigation bridge, both ways *)

Lemma listener_filter_passes `{Platform} (c : Copy) (event : NavigateEvent) :
  negb (truthy (prop event "canIntercept")) || truthy (prop event "hashChange")
    || truthy (prop event (download_property c)) = false <->
  truthy (canIntercept event) = true /\
  truthy (hashChange event) = false /\
  truthy (prop event (download_property c)) = false.
Proof.
  change (prop event "canIntercept") with (canIntercept event).
  change (prop event "hashChange") with (hashChange event).
  destruct (truthy (canIntercept event)), (truthy (hashChange event)),
    (truthy (prop event (download_property c))); simpl; intuition congruence.
Qed.

(** X2.  The listener hands a navigation to [match], with the parsed
    destination, exactly when [canIntercept] is truthy, [hashChange] and the
    download property are falsy, the destination parses and its host is
    [location.host].  In every other case it makes no call and leaves the
    router alone, and it throws only when the three properties pass and the
    URL constructor throws. *)
Theorem navigate_listener_decision `{Platform} (c : Copy) (event : NavigateEvent)
    (this : Router) :
  (forall u, eligible c event u ->
             navigate_listener c event this = match_ c u event this) /\
  ((forall u, ~ eligible c event u) ->
   final (navigate_listener c event this) = this /\
   effects (navigate_listener c event this) = []) /\
  (forall e,
     completion (navigate_listener c event this) = Throw e <->
     truthy (canIntercept event) = true /\
     truthy (hashChange event) = false /\
     truthy (prop event (download_property c)) = false /\
     URL_new (destination_url event) = Throw e).
Proof.
  split; [|split].
  - intros u (Hc & Hh & Hd & Hu & Hhost).
    apply navigate_listener_eligible; assumption.
  - intros Hnot. split; [apply navigate_listener_frame|].
    destruct (navigate_listener_effects c event this) as [Hnil | (u & Hu & Hm)];
      [exact Hnil|].
    unfold navigate_listener in *.
    destruct (negb (truthy (prop event "canIntercept")) || truthy (prop event "hashChange")
              || truthy (prop event (download_property c))) eqn:Hf; [reflexivity|].
    apply listener_filter_passes in Hf. destruct Hf as (Hc & Hh & Hd).
    rewrite (bind_normal _ _ this this u []); [|unfold lift; rewrite Hu; reflexivity].
    destruct (String.eqb (host u) location_host) eqn:Hhost; [|reflexivity].
    apply String.eqb_eq in Hhost. exfalso. apply (Hnot u).
    repeat split; assumption.
  - intros e. unfold navigate_listener.
    destruct (negb (truthy (prop event "canIntercept")) || truthy (prop event "hashChange")
              || truthy (prop event (download_property c))) eqn:Hf.
    + split; [discriminate|]. intros (Hc & Hh & Hd & _).
      assert (Hpass : negb (truthy (prop event "canIntercept"))
                      || truthy (prop event "hashChange")
                      || truthy (prop event (download_property c)) = false)
        by (apply listener_filter_passes; auto).
      congruence.
    + apply listener_filter_passes in Hf. destruct Hf as (Hc & Hh & Hd).
      destruct (URL_new (destination_url event)) as [u|e'] eqn:Hu.
      * rewrite (bind_normal _ _ this this u []) by reflexivity.
        split; [|intros (_ & _ & _ & [=])].
        destruct (negb (String.eqb (host u) location_host)); [discriminate|].
        unfold completion. simpl.
        destruct (completion (getRoute u this)) as [[mr|]|e0] eqn:Hg.
        -- rewrite (match_found c u event this mr Hg). discriminate.
        -- rewrite (match_not_found c u event this Hg). discriminate.
        -- unfold getRoute in Hg. unfold_m.
           destruct (staticRoutes this !! pathname u); discriminate.
      * rewrite (bind_throw _ _ this this e' []) by reflexivity.
        unfold completion. simpl. split.
        -- intros [= ->]. auto.
        -- intros (_ & _ & _ & [= ->]). reflexivity.
Qed.

Lemma navigate_listener_decision_witness :
  eligible Copy1 (Examples.navigation "https://site/about") (Examples.url_of "/about") /\
  navigate_listener Copy1 (Examples.navigation "https://site/about") new_router =
    match_ Copy1 (Examples.url_of "/about") (Examples.navigation "https://site/about")
      new_router.
Proof.
  assert (He : eligible Copy1 (Examples.navigation "https://site/about")
                 (Examples.url_of "/about")).
  { unfold eligible. repeat split; reflexivity. }
  split; [exact He|].
  exact (proj1 (navigate_listener_decision Copy1
                  (Examples.navigation "https://site/about") new_router) _ He).
Defined.

(** ** Registration and resolution *)

Lemma scan_app_some (l l' : list DynamicRoute) (url : URL) (mr : MatchedRoute) :
  scan l url = Some mr -> scan (l ++ l') url = Some mr.
Proof.
  induction l as [|r l IH]; simpl; [discriminate|].
  destruct (test (pattern r) url); [auto | exact IH].
Qed.

Lemma scan_app_none (l l' : list DynamicRoute) (url : URL) :
  scan l url = None -> scan (l ++ l') url = scan l' url.
Proof.
  induction l as [|r l IH]; simpl; [reflexivity|].
  destruct (test (pattern r) url); [discriminate | exact IH].
Qed.

(** X3.  Registering a route does not change how a URL that already has a
    route resolves, unless the registration is a static one for exactly that
    URL's pathname: a pattern goes behind the entries already there, and a
    static path only answers for itself.  This holds whether or not the
    [add] returns normally. *)
Theorem add_preserves_resolution `{Platform} (route : string) (h : Handler)
    (url : URL) (this : Router) (mr : MatchedRoute) :
  includes route ":" = true \/ pathname url <> route ->
  completion (getRoute url this) = Normal (Some mr) ->
  completion (getRoute url (final (add route h this))) = Normal (Some mr).
Proof.
  intros Hside Hres.
  destruct (includes route ":") eqn:Hi.
  - destruct (URLPattern_new route) as [p|e] eqn:Hp.
    + rewrite (add_dynamic route h this p Hi Hp).
      unfold final. simpl.
      destruct (staticRoutes this !! pathname url) as [h0|] eqn:Hs.
      * rewrite (getRoute_static _ _ h0 Hs) in Hres.
        rewrite (getRoute_static _ _ h0); [exact Hres | exact Hs].
      * rewrite (getRoute_dynamic _ _ Hs) in Hres.
        rewrite getRoute_dynamic by exact Hs.
        unfold completion in *. simpl in *. injection Hres as Hscan.
        f_equal. apply scan_app_some, Hscan.
    + rewrite (add_throws route h this e Hi Hp). exact Hres.
  - destruct Hside as [Hside|Hne]; [discriminate|].
    rewrite (add_static route h this Hi). unfold final. simpl.
    assert (Hlook : <[route := h]> (staticRoutes this) !! pathname url =
                    staticRoutes this !! pathname url)
      by (apply lookup_insert_ne; congruence).
    destruct (staticRoutes this !! pathname url) as [h0|] eqn:Hs.
    + rewrite (getRoute_static _ _ h0 Hs) in Hres.
      rewrite (getRoute_static _ _ h0); [exact Hres | exact Hlook].
    + rewrite (getRoute_dynamic _ _ Hs) in Hres.
      rewrite getRoute_dynamic by exact Hlook. exact Hres.
Qed.

Lemma add_preserves_resolution_witness :
  completion (getRoute (Examples.url_of "/posts/42")
                (final (add "/posts/:slug" (Fn 3)
                          (final (add_all [("/", Fn 1); ("/posts/:id", Fn 2)]
                                    new_router))))) =
  completion (getRoute (Examples.url_of "/posts/42")
                (final (add_all [("/", Fn 1); ("/posts/:id", Fn 2)] new_router))).
Proof.
  destruct (completion (getRoute (Examples.url_of "/posts/42")
              (final (add_all [("/", Fn 1); ("/posts/:id", Fn 2)] new_router))))
    as [[mr|]|e] eqn:Hres.
  - exact (add_preserves_resolution "/posts/:slug" (Fn 3) (Examples.url_of "/posts/42")
             (final (add_all [("/", Fn 1); ("/posts/:id", Fn 2)] new_router)) mr
             (or_introl eq_refl) Hres).
  - vm_compute in Hres. discriminate.
  - vm_compute in Hres. discriminate.
Defined.

(** X4.  A URL without a route gets the one just registered: after
    [add (route, h)] with a template that compiles to a pattern accepting
    the URL, the URL resolves to [h] with that pattern's result. *)
Theorem add_pattern_resolves `{Platform} (route : string) (h : Handler)
    (p : URLPattern) (url : URL) (this : Router) :
  includes route ":" = true ->
  URLPattern_new route = Normal p ->
  test p url = true ->
  completion (getRoute url this) = Normal None ->
  completion (getRoute url (final (add route h this))) =
    Normal (Some {| mr_match := exec p url; mr_handler := h |}).
Proof.
  intros Hi Hp Ht Hres. rewrite (add_dynamic route h this p Hi Hp).
  unfold final. simpl.
  destruct (staticRoutes this !! pathname url) as [h0|] eqn:Hs.
  - rewrite (getRoute_static _ _ h0 Hs) in Hres. discriminate.
  - rewrite (getRoute_dynamic _ _ Hs) in Hres. rewrite getRoute_dynamic by exact Hs.
    unfold completion in *. simpl in *. injection Hres as Hscan.
    rewrite (scan_app_none _ _ _ Hscan). simpl. rewrite Ht. reflexivity.
Qed.

Lemma add_pattern_resolves_witness :
  exists m,
    completion (getRoute (Examples.url_of "/posts/42")
                  (final (add "/posts/:id" (Fn 2)
                            (final (add "/" (Fn 1) new_router))))) =
      Normal (Some {| mr_match := Some m; mr_handler := Fn 2 |}) /\
    groups (res_pathname m) = {[ "id" := Some "42" ]}.
Proof.
  destruct (URLPattern_new "/posts/:id") as [p|e] eqn:Hp; [|discriminate].
  eexists. split.
  - rewrite (add_pattern_resolves "/posts/:id" (Fn 2) p (Examples.url_of "/posts/42")
               (final (add "/" (Fn 1) new_router)) eq_refl Hp).
    + injection Hp as <-. vm_compute. reflexivity.
    + injection Hp as <-. vm_compute. reflexivity.
    + vm_compute. reflexivity.
  - vm_compute. reflexivity.
Defined.

(** ** The parameter marker *)

Lemma prefix_app (sub post : string) : String.prefix sub (sub ++ post)%string = true.
Proof.
  apply String.prefix_correct.
  induction sub as [|a sub IH]; simpl.
  - destruct post; reflexivity.
  - rewrite IH. reflexivity.
Qed.

Lemma prefix_inv (sub s : string) :
  String.prefix sub s = true -> exists post, s = (sub ++ post)%string.
Proof.
  intros Hp. apply String.prefix_correct in Hp. revert s Hp.
  induction sub as [|a sub IH]; intros s; simpl.
  - intros _. exists s. reflexivity.
  - destruct s as [|b s]; simpl; [discriminate|].
    intros [= <- Hp]. destruct (IH s Hp) as [post ->]. exists post. reflexivity.
Qed.

(** [includes] is the substring test. *)
Lemma includes_cons (a : ascii) (s sub : string) :
  includes (String a s) sub =
    if String.prefix sub (String a s) then true else includes s sub.
Proof. reflexivity. Qed.

Lemma includes_spec (s sub : string) :
  includes s sub = true <-> exists pre post, s = (pre ++ sub ++ post)%string.
Proof.
  split.
  - induction s as [|a s IH].
    + destruct sub; simpl; [|discriminate].
      intros _. exists ""%string, ""%string. reflexivity.
    + rewrite includes_cons.
      destruct (String.prefix sub (String a s)) eqn:Hp.
      * intros _. destruct (prefix_inv _ _ Hp) as [post Hpost].
        exists ""%string, post. exact Hpost.
      * intros Hin. destruct (IH Hin) as (pre & post & ->).
        exists (String a pre), post. reflexivity.
  - intros (pre & post & ->). induction pre as [|a pre IH].
    + change ("" ++ sub ++ post)%string with (sub ++ post)%string.
      pose proof (prefix_app sub post) as Hp.
      destruct (sub ++ post)%string as [|b rest] eqn:Hs.
      * destruct sub; [reflexivity | discriminate].
      * rewrite includes_cons, Hp. reflexivity.
    + change (String a pre ++ sub ++ post)%string
        with (String a (pre ++ sub ++ post)%string).
      rewrite includes_cons, IH. destruct (String.prefix sub _); reflexivity.
Qed.

(** X5.  What decides between the two tables is a [':'] anywhere in the
    path.  A path with one never reaches the static mapping, whether its
    template compiles or not; a path without one is always filed there, and
    that [add] neither throws nor touches the pattern sequence. *)
Theorem add_files_by_colon `{Platform} (route : string) (h : Handler) (this : Router) :
  ((exists pre post, route = (pre ++ ":" ++ post)%string) ->
   staticRoutes (final (add route h this)) = staticRoutes this) /\
  ((forall pre post, route <> (pre ++ ":" ++ post)%string) ->
   add route h this =
     (Normal tt,
      {| staticRoutes := <[route := h]> (staticRoutes this);
         dynamicRoutes := dynamicRoutes this;
         resolveRouteChange := resolveRouteChange this |},
      [])).
Proof.
  split.
  - intros Hcolon. apply includes_spec in Hcolon.
    destruct (URLPattern_new route) as [p|e] eqn:Hp.
    + rewrite (add_dynamic route h this p Hcolon Hp). reflexivity.
    + rewrite (add_throws route h this e Hcolon Hp). reflexivity.
  - intros Hnone. apply add_static.
    destruct (includes route ":") eqn:Hi; [|reflexivity].
    apply includes_spec in Hi. destruct Hi as (pre & post & Hr).
    exfalso. exact (Hnone pre post Hr).
Qed.

Lemma add_files_by_colon_witness :
  staticRoutes (final (add "/at/12:30" (Fn 1) new_router)) = staticRoutes new_router.
Proof.
  apply (proj1 (add_files_by_colon "/at/12:30" (Fn 1) new_router)).
  exists "/at/12"%string, "30"%string. reflexivity.
Defined.

(** ** Runs of the world *)

Lemma run_snoc `{Platform} (c : Copy) (acts : list Action) (a : Action) (w : World) :
  run c (acts ++ [a]) w = step c (run c acts w) a.
Proof. unfold run. rewrite fold_left_app. reflexivity. Qed.

(** Induction on the worlds reached from a fresh one. *)
Lemma run_ind `{Platform} (c : Copy) (P : World -> Prop) :
  P new_world ->
  (forall acts a, P (run c acts new_world) -> P (step c (run c acts new_world) a)) ->
  forall acts, P (run c acts new_world).
Proof.
  intros Hnew Hstep acts. induction acts as [|a acts IH] using rev_ind.
  - exact Hnew.
  - rewrite run_snoc. apply Hstep, IH.
Qed.

Lemma with_router_same (w : World) : with_router (router w) w = w.
Proof. destruct w; reflexivity. Qed.

Lemma step_add `{Platform} (c : Copy) (w : World) (route : string) (h : Handler) :
  step c w (Add route h) = with_router (final (add route h (router w))) w.
Proof.
  simpl. unfold call. destruct (add_quiet route h (router w)) as [Hout _].
  destruct (add route h (router w)) as [[k r] out]. simpl in *. subst out.
  reflexivity.
Qed.

Lemma call_run {A} (m : M A) (w : World) (k : Completion A) (r : Router)
    (out : list Effect) :
  m (router w) = (k, r, out) ->
  call m w = fold_left absorb out (with_router r w).
Proof. intros Hm. unfold call. rewrite Hm. reflexivity. Qed.

(** The three outcomes of the listener. *)
Lemma navigate_listener_cases `{Platform} (c : Copy) (event : NavigateEvent)
    (this : Router) :
  (exists k, navigate_listener c event this = (k, this, [])) \/
  (exists u mr,
     eligible c event u /\
     completion (getRoute u this) = Normal (Some mr) /\
     navigate_listener c event this =
       (Normal tt, this,
        [Intercept event {| d_route := route_of u mr; d_handler := mr_handler mr |}])) \/
  (exists u,
     eligible c event u /\
     completion (getRoute u this) = Normal None /\
     navigate_listener c event this =
       (Normal tt, this, [DispatchEvent (RouterEvent_make c "404" (DetailURL u))])).
Proof.
  unfold navigate_listener.
  destruct (negb (truthy (prop event "canIntercept")) || truthy (prop event "hashChange")
            || truthy (prop event (download_property c))) eqn:Hf.
  { left. exists (Normal tt). reflexivity. }
  apply listener_filter_passes in Hf. destruct Hf as (Hc & Hh & Hd).
  destruct (URL_new (destination_url event)) as [u|e] eqn:Hu.
  - rewrite (bind_normal _ _ this this u []) by reflexivity.
    destruct (String.eqb (host u) location_host) eqn:Hhost; simpl.
    + apply String.eqb_eq in Hhost.
      assert (He : eligible c event u) by (repeat split; assumption).
      destruct (completion (getRoute u this)) as [[mr|]|e0] eqn:Hg.
      * right. left. exists u, mr. repeat split; try assumption.
        rewrite (match_found c u event this mr Hg). reflexivity.
      * right. right. exists u. repeat split; try assumption.
        rewrite (match_not_found c u event this Hg). reflexivity.
      * unfold getRoute in Hg. unfold_m.
        destruct (staticRoutes this !! pathname u); discriminate.
    + left. exists (Normal tt). reflexivity.
  - rewrite (bind_throw _ _ this this e []) by reflexivity.
    left. exists (Throw e). reflexivity.
Qed.

(** A navigation leaves the world alone, or adds one claim, or adds one
    ['404'] event. *)
Lemma step_navigate `{Platform} (c : Copy) (w : World) (event : NavigateEvent) :
  step c w (Navigate event) = w \/
  (exists u mr,
     eligible c event u /\
     completion (getRoute u (router w)) = Normal (Some mr) /\
     step c w (Navigate event) =
       absorb w (Intercept event {| d_route := route_of u mr;
                                    d_handler := mr_handler mr |})) \/
  (exists u,
     eligible c event u /\
     completion (getRoute u (router w)) = Normal None /\
     step c w (Navigate event) =
       absorb w (DispatchEvent (RouterEvent_make c "404" (DetailURL u)))).
Proof.
  change (step c w (Navigate event)) with (call (navigate_listener c event) w).
  destruct (navigate_listener_cases c event (router w))
    as [[k Hl] | [(u & mr & He & Hg & Hl) | (u & He & Hg & Hl)]];
    rewrite (call_run _ _ _ _ _ Hl), with_router_same.
  - left. reflexivity.
  - right. left. exists u, mr. split; [exact He | split; [exact Hg | reflexivity]].
  - right. right. exists u. split; [exact He | split; [exact Hg | reflexivity]].
Qed.

(** What the host's call of the oldest claimed closure does to the world. *)
Lemma step_invoke `{Platform} (c : Copy) (w : World) (d : Deferred) (rest : list Deferred) :
  intercepted w = d :: rest ->
  step c w InvokeIntercepted =
    {| router := {| staticRoutes := staticRoutes (router w);
                    dynamicRoutes := dynamicRoutes (router w);
                    resolveRouteChange := None |};
       generator := generator w;
       requests := requests w;
       promises := promises w;
       jobs := jobs w ++ reactions_of (resolver_call (resolveRouteChange (router w))
                                         (d_route d));
       intercepted := rest;
       delivered := delivered w;
       log := log w ++ DispatchEvent (RouterEvent_make c "change"
                                        (DetailRoute (d_route d)))
                :: resolver_call (resolveRouteChange (router w)) (d_route d)
                ++ [CallHandler (d_handler d) (d_route d)] |}.
Proof.
  intros Hi. simpl. unfold invoke_intercepted. rewrite Hi.
  unfold call. rewrite intercept_handler_run. simpl.
  destruct (resolveRouteChange (router w)) as [[p]|]; simpl;
    rewrite <- ?app_assoc, ?app_nil_r; reflexivity.
Qed.

Lemma step_invoke_nothing `{Platform} (c : Copy) (w : World) :
  intercepted w = [] -> step c w InvokeIntercepted = w.
Proof. intros Hi. simpl. unfold invoke_intercepted. rewrite Hi. reflexivity. Qed.

(** The iterator and the microtasks make no call of their own and leave the
    host's pending closures alone. *)
Lemma drive_log (w : World) :
  log (drive w) = log w /\ intercepted (drive w) = intercepted w.
Proof.
  unfold drive. destruct (requests w) as [|[] ?]; [split; reflexivity| | |];
    destruct (generator w); split; reflexivity.
Qed.

Lemma iterate_log `{Platform} (c : Copy) (w : World) (q : Request) :
  log (step c w (Iterate q)) = log w /\
  intercepted (step c w (Iterate q)) = intercepted w.
Proof.
  simpl. unfold iterator_request.
  match goal with |- context [drive ?w'] => exact (drive_log w') end.
Qed.

Lemma microtask_log `{Platform} (c : Copy) (w : World) :
  log (step c w Microtask) = log w /\
  intercepted (step c w Microtask) = intercepted w.
Proof.
  simpl. unfold run_job. destruct (jobs w) as [|[p x|] rest]; [split; reflexivity| |];
    simpl; destruct (generator w); try (split; reflexivity).
  destruct (Nat.eqb p p0); [|split; reflexivity].
  match goal with |- context [drive ?w'] => exact (drive_log w') end.
Qed.

(** ** What the log is made of *)

(** A step adds nothing to the log, or one claim, or one ['404'] event, or
    the calls of one claimed closure. *)
Lemma step_log `{Platform} (c : Copy) (w : World) (a : Action) :
  (log (step c w a) = log w /\ intercepted (step c w a) = intercepted w) \/
  (exists event d,
     log (step c w a) = log w ++ [Intercept event d] /\
     intercepted (step c w a) = intercepted w ++ [d]) \/
  (exists u,
     log (step c w a) =
       log w ++ [DispatchEvent (RouterEvent_make c "404" (DetailURL u))] /\
     intercepted (step c w a) = intercepted w) \/
  (exists d rest,
     intercepted w = d :: rest /\
     intercepted (step c w a) = rest /\
     log (step c w a) =
       log w ++ DispatchEvent (RouterEvent_make c "change" (DetailRoute (d_route d)))
         :: resolver_call (resolveRouteChange (router w)) (d_route d)
         ++ [CallHandler (d_handler d) (d_route d)]).
Proof.
  destruct a as [route h|event| |q|].
  - left. rewrite step_add. split; reflexivity.
  - destruct (step_navigate c w event)
      as [-> | [(u & mr & _ & _ & ->) | (u & _ & _ & ->)]].
    + left. split; reflexivity.
    + right. left. eexists _, _. split; reflexivity.
    + right. right. left. exists u. split; reflexivity.
  - destruct (intercepted w) as [|d rest] eqn:Hi.
    + left. rewrite (step_invoke_nothing c w Hi). split; [reflexivity | exact Hi].
    + right. right. right. exists d, rest. rewrite (step_invoke c w d rest Hi).
      repeat split; reflexivity.
  - left. apply iterate_log.
  - left. apply microtask_log.
Qed.

Lemma claimed_app (out out' : list Effect) :
  claimed (out ++ out') = claimed out ++ claimed out'.
Proof. unfold claimed. apply omap_app. Qed.

Lemma handled_app (out out' : list Effect) :
  handled (out ++ out') = handled out ++ handled out'.
Proof. unfold handled. apply omap_app. Qed.

Lemma dispatched_app (out out' : list Effect) :
  dispatched (out ++ out') = dispatched out ++ dispatched out'.
Proof. unfold dispatched. apply omap_app. Qed.

Lemma events_named_app (n : string) (out out' : list Effect) :
  events_named n (out ++ out') = events_named n out ++ events_named n out'.
Proof. unfold events_named. apply omap_app. Qed.

(** X6.  Handlers are called for claimed navigations only: at any time the
    navigations claimed so far are, in order, those whose handler has been
    called, each once and with the record made by [match], followed by those
    the host still holds. *)
Theorem handlers_follow_claims `{Platform} (c : Copy) (acts : list Action) :
  claimed (log (run c acts new_world)) =
    handled (log (run c acts new_world)) ++ intercepted (run c acts new_world).
Proof.
  apply (run_ind c (fun w => claimed (log w) = handled (log w) ++ intercepted w)).
  - reflexivity.
  - clear acts. intros acts a IH.
    destruct (step_log c (run c acts new_world) a)
      as [[-> ->] | [(event & d & -> & ->) | [(u & -> & ->) | (d & rest & Hi & -> & ->)]]].
    + exact IH.
    + rewrite claimed_app, handled_app, IH. simpl. rewrite app_nil_r, app_assoc.
      reflexivity.
    + rewrite claimed_app, handled_app, IH. simpl. rewrite !app_nil_r. reflexivity.
    + rewrite claimed_app, handled_app, IH, Hi.
      destruct d as [r h]. simpl.
      destruct (resolveRouteChange (router (run c acts new_world))); simpl;
        rewrite app_nil_r, <- app_assoc; reflexivity.
Qed.

(** X7.  Left to itself the router dispatches two kinds of event only:
    ['404'] with a URL as detail, and ['change'] with a matched-route
    record. *)
Theorem events_are_404_or_change `{Platform} (c : Copy) (acts : list Action) :
  Forall (fun e : RouterEvent =>
            (exists u, e = RouterEvent_make c "404" (DetailURL u)) \/
            (exists r, e = RouterEvent_make c "change" (DetailRoute r)))
         (dispatched (log (run c acts new_world))).
Proof.
  apply (run_ind c (fun w =>
    Forall (fun e : RouterEvent =>
              (exists u, e = RouterEvent_make c "404" (DetailURL u)) \/
              (exists r, e = RouterEvent_make c "change" (DetailRoute r)))
           (dispatched (log w)))).
  - constructor.
  - clear acts. intros acts a IH.
    destruct (step_log c (run c acts new_world) a)
      as [[-> _] | [(event & d & -> & _) | [(u & -> & _) | (d & rest & _ & _ & ->)]]].
    + exact IH.
    + rewrite dispatched_app. simpl. rewrite app_nil_r. exact IH.
    + rewrite dispatched_app. apply Forall_app. split; [exact IH|].
      constructor; [left; exists u; reflexivity | constructor].
    + rewrite dispatched_app. apply Forall_app. split; [exact IH|].
      simpl. destruct (resolveRouteChange (router (run c acts new_world))); simpl;
        (constructor; [right; exists (d_route d); reflexivity | constructor]).
Qed.

(** X8.  ['change'] is dispatched once for each handler call, in the same
    order and with the record the handler receives, and at no other time. *)
Theorem change_for_each_handler_call `{Platform} (c : Copy) (acts : list Action) :
  events_named "change" (log (run c acts new_world)) =
    map (fun d => RouterEvent_make c "change" (DetailRoute (d_route d)))
        (handled (log (run c acts new_world))).
Proof.
  apply (run_ind c (fun w =>
    events_named "change" (log w) =
      map (fun d => RouterEvent_make c "change" (DetailRoute (d_route d)))
          (handled (log w)))).
  - reflexivity.
  - clear acts. intros acts a IH.
    destruct (step_log c (run c acts new_world) a)
      as [[-> _] | [(event & d & -> & _) | [(u & -> & _) | (d & rest & _ & _ & ->)]]].
    + exact IH.
    + rewrite events_named_app, handled_app, IH. simpl. rewrite !app_nil_r. reflexivity.
    + rewrite events_named_app, handled_app, IH. simpl. rewrite !app_nil_r. reflexivity.
    + rewrite events_named_app, handled_app, map_app, IH. f_equal.
      destruct (resolveRouteChange (router (run c acts new_world))); reflexivity.
Qed.

(** ** The iterator does not end by itself *)

Lemma loop_body_fields (w : World) :
  loop_body w =
    {| router := {| staticRoutes := staticRoutes (router w);
                    dynamicRoutes := dynamicRoutes (router w);
                    resolveRouteChange := Some (ResolveOf (promises w)) |};
       generator := AwaitingPromise (promises w);
       requests := requests w;
       promises := S (promises w);
       jobs := jobs w;
       intercepted := intercepted w;
       delivered := delivered w;
       log := log w |}.
Proof. reflexivity. Qed.

Lemma finally_block_fields (w : World) :
  finally_block w =
    {| router := {| staticRoutes := staticRoutes (router w);
                    dynamicRoutes := dynamicRoutes (router w);
                    resolveRouteChange := None |};
       generator := Completed;
       requests := [];
       promises := promises w;
       jobs := jobs w;
       intercepted := intercepted w;
       delivered := delivered w;
       log := log w |}.
Proof. reflexivity. Qed.

(** The five things [drive] can do. *)
Lemma drive_cases (w : World) :
  drive w = w \/
  ((generator w = SuspendedStart \/ generator w = SuspendedYield) /\
   (exists rest, requests w = NextRequest :: rest) /\
   drive w = loop_body w) \/
  (((generator w = SuspendedStart /\
     exists q rest, requests w = q :: rest /\ abandons q = true) \/
    generator w = Completed) /\
   drive w = with_generator Completed [] w) \/
  (generator w = SuspendedYield /\
   (exists rest, requests w = ReturnRequest :: rest) /\
   drive w = with_jobs (jobs w ++ [ReturnReaction])
                       (with_generator AwaitingReturn (requests w) w)) \/
  (generator w = SuspendedYield /\
   (exists rest, requests w = ThrowRequest :: rest) /\
   drive w = finally_block w).
Proof.
  unfold drive. destruct (requests w) as [|q rest] eqn:Hq; [left; reflexivity|].
  destruct (generator w) eqn:Hg; destruct q; eauto 12.
Qed.

Lemma drive_unstopped (w : World) : unstopped w -> unstopped (drive w).
Proof.
  intros [Hg Hq].
  destruct (drive_cases w)
    as [-> | [(_ & _ & ->) | [([(_ & q & rest & Hr & Ha)|Hs] & ->)
       | [(_ & (rest & Hr) & ->) | (_ & (rest & Hr) & ->)]]]].
  - split; assumption.
  - rewrite loop_body_fields. split; [reflexivity | exact Hq].
  - rewrite Hr in Hq. inversion Hq; congruence.
  - rewrite Hs in Hg. discriminate.
  - rewrite Hr in Hq. inversion Hq; discriminate.
  - rewrite Hr in Hq. inversion Hq; discriminate.
Qed.

Lemma step_unstopped `{Platform} (c : Copy) (w : World) (a : Action) :
  is_abandon a = false -> unstopped w -> unstopped (step c w a).
Proof.
  intros Ha [Hg Hq]. destruct a as [route h|event| |q|]; simpl in *.
  - destruct (call_fields (add route h) w) as (Hg' & Hq' & _).
    unfold unstopped. rewrite Hg', Hq'. split; assumption.
  - destruct (call_fields (navigate_listener c event) w) as (Hg' & Hq' & _).
    unfold unstopped. rewrite Hg', Hq'. split; assumption.
  - unfold invoke_intercepted. destruct (intercepted w) as [|d rest]; [split; assumption|].
    match goal with |- unstopped (call ?m ?w') =>
      destruct (call_fields m w') as (Hg' & Hq' & _) end.
    unfold unstopped. rewrite Hg', Hq'. split; assumption.
  - apply drive_unstopped. split; [exact Hg|]. simpl.
    apply Forall_app. split; [exact Hq|]. constructor; [exact Ha | constructor].
  - unfold run_job. destruct (jobs w) as [|[p x|] rest]; [split; assumption| |]; simpl.
    + destruct (generator w) eqn:Hgen; try (split; [simpl; rewrite Hgen|]; assumption).
      destruct (Nat.eqb p p0).
      * apply drive_unstopped. split; [reflexivity|]. simpl.
        destruct (requests w); [constructor|]. inversion Hq; assumption.
      * split; [simpl; rewrite Hgen|]; assumption.
    + destruct (generator w) eqn:Hgen; try (split; [simpl; rewrite Hgen|]; assumption).
      discriminate.
Qed.

(** X9.  The sequence never ends by itself: as long as the consumer has
    called neither [return ()] nor [throw ()], whatever else happens
    (registrations, navigations, matches, pulls), the generator is not
    completed and not completing. *)
Theorem iterator_never_ends_unasked `{Platform} (c : Copy) (acts : list Action) :
  Forall (fun a => is_abandon a = false) acts ->
  running_or_idle (generator (run c acts new_world)) = true.
Proof.
  intros Hacts.
  assert (Hu : unstopped (run c acts new_world)).
  { assert (Hnew : unstopped new_world) by (split; [reflexivity | constructor]).
    revert Hnew. generalize new_world.
    induction Hacts as [|a acts Ha _ IH]; intros w Hw; simpl; [exact Hw|].
    apply IH, step_unstopped; assumption. }
  exact (proj1 Hu).
Qed.

Lemma iterator_never_ends_unasked_witness :
  running_or_idle
    (generator (run Copy1 [Add "/" (Fn 1); Iterate NextRequest;
                           Navigate (Examples.navigation "https://site/");
                           InvokeIntercepted; Microtask; Iterate NextRequest]
                  new_world)) = true.
Proof.
  apply (iterator_never_ends_unasked Copy1).
  repeat constructor.
Defined.

(** ** The slot and the pull in progress *)

Lemma pending_promises_app (js js' : list Job) :
  pending_promises (js ++ js') = pending_promises js ++ pending_promises js'.
Proof. unfold pending_promises. apply omap_app. Qed.

Lemma pending_values_app (js js' : list Job) :
  pending_values (js ++ js') = pending_values js ++ pending_values js'.
Proof. unfold pending_values. apply omap_app. Qed.

Lemma tracks_ext (w w' : World) :
  resolveRouteChange (router w') = resolveRouteChange (router w) ->
  generator w' = generator w ->
  promises w' = promises w ->
  pending_promises (jobs w') = pending_promises (jobs w) ->
  slot_tracks_pull w -> slot_tracks_pull w'.
Proof.
  intros Hs Hg Hp Hj Hw. unfold slot_tracks_pull. rewrite Hs, Hg, Hp, Hj. exact Hw.
Qed.

(** Outside a pull the slot is empty and no promise reaction waits. *)
Lemma tracks_idle (w : World) :
  slot_tracks_pull w ->
  (forall p, generator w <> AwaitingPromise p) ->
  resolveRouteChange (router w) = None /\ pending_promises (jobs w) = [].
Proof.
  intros (K1 & _ & K3) Hidle. split.
  - destruct (resolveRouteChange (router w)) as [[p]|]; [|reflexivity].
    destruct (K1 p eq_refl) as [Hg _]. exfalso. exact (Hidle p Hg).
  - destruct K3 as [Hnil | (p & _ & Hg)]; [exact Hnil|].
    exfalso. exact (Hidle p Hg).
Qed.

Lemma tracks_intro_idle (w : World) :
  (forall p, generator w <> AwaitingPromise p) ->
  resolveRouteChange (router w) = None ->
  pending_promises (jobs w) = [] ->
  slot_tracks_pull w.
Proof.
  intros Hidle Hs Hj. split; [|split].
  - intros p Hp. congruence.
  - intros p Hg. exfalso. exact (Hidle p Hg).
  - left. exact Hj.
Qed.

Lemma drive_tracks (w : World) : slot_tracks_pull w -> slot_tracks_pull (drive w).
Proof.
  intros Hw.
  destruct (drive_cases w)
    as [-> | [(Hg & _ & ->) | [(Hg & ->) | [(Hg & _ & ->) | (Hg & _ & ->)]]]].
  - exact Hw.
  - destruct (tracks_idle w Hw) as [_ Hj].
    { intros p Hp. destruct Hg as [Hg|Hg]; congruence. }
    rewrite loop_body_fields. split; [|split]; simpl.
    + intros p [= <-]. split; [reflexivity | exact Hj].
    + intros p [= <-]. reflexivity.
    + left. exact Hj.
  - destruct (tracks_idle w Hw) as [Hs Hj].
    { intros p Hp. destruct Hg as [(Hg & _)|Hg]; congruence. }
    apply tracks_intro_idle; simpl; [discriminate | exact Hs | exact Hj].
  - destruct (tracks_idle w Hw) as [Hs Hj].
    { intros p Hp. congruence. }
    apply tracks_intro_idle; simpl; [discriminate | exact Hs |].
    rewrite pending_promises_app, Hj. reflexivity.
  - destruct (tracks_idle w Hw) as [Hs Hj].
    { intros p Hp. congruence. }
    rewrite finally_block_fields.
    apply tracks_intro_idle; simpl; [discriminate | reflexivity | exact Hj].
Qed.

Lemma run_job_tracks (w : World) :
  coherent w -> slot_tracks_pull w -> slot_tracks_pull (run_job w).
Proof.
  intros (_ & _ & Hc) Hw. pose proof Hw as (K1 & K2 & K3).
  unfold run_job. destruct (jobs w) as [|j rest] eqn:Hj; [exact Hw|].
  destruct j as [p x|]; simpl.
  - (* the reaction is for the pull in progress *)
    destruct K3 as [Hnil | (p' & Hp' & Hg)]; [discriminate|].
    simpl in Hp'. injection Hp' as <- Hrest.
    rewrite Hg in *. rewrite Nat.eqb_refl.
    destruct Hc as [_ Hc]. specialize (Hc x (or_introl eq_refl)).
    apply drive_tracks. apply tracks_intro_idle; simpl; [discriminate | exact Hc | exact Hrest].
  - assert (Hrest : slot_tracks_pull (with_jobs rest w)).
    { apply (tracks_ext w); try reflexivity; [|exact Hw]. simpl. rewrite Hj. reflexivity. }
    destruct (generator w) eqn:Hg; try (simpl; rewrite ?Hg; exact Hrest).
    destruct (tracks_idle w Hw) as [Hs Hjobs].
    { intros p Hp. congruence. }
    rewrite finally_block_fields.
    apply tracks_intro_idle; simpl; [discriminate | reflexivity |].
    rewrite Hj in Hjobs. exact Hjobs.
Qed.

Lemma step_tracks `{Platform} (c : Copy) (w : World) (a : Action) :
  coherent w -> slot_tracks_pull w -> slot_tracks_pull (step c w a).
Proof.
  intros Hc Hw. destruct a as [route h|event| |q|].
  - rewrite step_add. apply (tracks_ext w); try reflexivity; [|exact Hw].
    apply add_quiet.
  - destruct (step_navigate c w event)
      as [-> | [(u & mr & _ & _ & ->) | (u & _ & _ & ->)]];
      [exact Hw | |]; apply (tracks_ext w); try reflexivity; exact Hw.
  - destruct (intercepted w) as [|d rest] eqn:Hi.
    + rewrite (step_invoke_nothing c w Hi). exact Hw.
    + rewrite (step_invoke c w d rest Hi). destruct Hw as (K1 & K2 & K3).
      split; [|split]; simpl.
      * discriminate.
      * exact K2.
      * rewrite pending_promises_app.
        destruct (resolveRouteChange (router w)) as [[p]|] eqn:Hs; simpl.
        -- destruct (K1 p eq_refl) as [Hg Hj]. right. exists p.
           rewrite Hj. split; [reflexivity | exact Hg].
        -- rewrite app_nil_r. exact K3.
  - simpl. unfold iterator_request. apply drive_tracks.
    apply (tracks_ext w); try reflexivity. exact Hw.
  - simpl. apply run_job_tracks; assumption.
Qed.

Lemma run_tracks `{Platform} (c : Copy) (acts : list Action) :
  slot_tracks_pull (run c acts new_world).
Proof.
  apply (run_ind c slot_tracks_pull).
  - apply tracks_intro_idle; [discriminate | reflexivity | reflexivity].
  - clear acts. intros acts a IH. apply step_tracks; [|exact IH].
    apply run_coherent, coherent_new_world.
Qed.

(** X10.  The slot never holds a stale resolver: whenever it is set, a pull
    is in progress, the resolver is that of the promise this pull created,
    which is the last one created, and that promise has not been resolved
    yet. *)
Theorem slot_holds_current_pull `{Platform} (c : Copy) (acts : list Action) (p : nat) :
  resolveRouteChange (router (run c acts new_world)) = Some (ResolveOf p) ->
  generator (run c acts new_world) = AwaitingPromise p /\
  promises (run c acts new_world) = S p /\
  pending_promises (jobs (run c acts new_world)) = [].
Proof.
  intros Hs. destruct (run_tracks c acts) as (K1 & K2 & _).
  destruct (K1 p Hs) as [Hg Hj]. split; [exact Hg|]. split; [apply K2, Hg | exact Hj].
Qed.

Lemma slot_holds_current_pull_witness :
  resolveRouteChange
    (router (run Copy1 [Iterate NextRequest; Add "/" (Fn 1);
                        Navigate (Examples.navigation "https://site/");
                        InvokeIntercepted; Microtask; Iterate NextRequest]
               new_world)) = Some (ResolveOf 1) /\
  generator (run Copy1 [Iterate NextRequest; Add "/" (Fn 1);
                        Navigate (Examples.navigation "https://site/");
                        InvokeIntercepted; Microtask; Iterate NextRequest]
               new_world) = AwaitingPromise 1.
Proof.
  split; [reflexivity|].
  exact (proj1 (slot_holds_current_pull Copy1
                  [Iterate NextRequest; Add "/" (Fn 1);
                   Navigate (Examples.navigation "https://site/");
                   InvokeIntercepted; Microtask; Iterate NextRequest] 1 eq_refl)).
Defined.

(** ** From the resolver to the consumer *)

Lemma drive_values (w : World) :
  delivered (drive w) = delivered w /\
  pending_values (jobs (drive w)) = pending_values (jobs w).
Proof.
  destruct (drive_cases w)
    as [-> | [(_ & _ & ->) | [(_ & ->) | [(_ & _ & ->) | (_ & _ & ->)]]]];
    try (split; reflexivity).
  simpl. rewrite pending_values_app. simpl. rewrite app_nil_r. split; reflexivity.
Qed.

(** X11.  What the consumer has received and what waits for it in the
    microtask queue are, in order, exactly the values the resolvers have
    been called with: nothing a match hands to a resolver is lost,
    duplicated or reordered on its way to the consumer. *)
Theorem delivered_are_the_resolved `{Platform} (c : Copy) (acts : list Action) :
  map snd (resolver_calls (log (run c acts new_world))) =
    delivered (run c acts new_world) ++ pending_values (jobs (run c acts new_world)).
Proof.
  apply (run_ind c (fun w =>
    map snd (resolver_calls (log w)) = delivered w ++ pending_values (jobs w))).
  - reflexivity.
  - clear acts. intros acts a IH.
    pose proof (run_tracks c acts) as (_ & _ & K3).
    set (w := run c acts new_world) in *.
    destruct a as [route h|event| |q|].
    + rewrite step_add. exact IH.
    + destruct (step_navigate c w event)
        as [-> | [(u & mr & _ & _ & ->) | (u & _ & _ & ->)]]; [exact IH | |];
        simpl; rewrite resolver_calls_app, map_app, IH; simpl;
        rewrite app_nil_r; reflexivity.
    + destruct (intercepted w) as [|d rest] eqn:Hi.
      * rewrite (step_invoke_nothing c w Hi). exact IH.
      * rewrite (step_invoke c w d rest Hi). simpl.
        rewrite resolver_calls_app, map_app, pending_values_app, IH.
        destruct (resolveRouteChange (router w)) as [[p]|]; simpl;
          rewrite <- app_assoc; reflexivity.
    + simpl. unfold iterator_request.
      match goal with |- context [drive ?w'] =>
        destruct (drive_values w') as [Hd Hj];
        destruct (drive_log w') as [Hl _] end.
      rewrite Hl, Hd, Hj. exact IH.
    + simpl. unfold run_job.
      destruct (jobs w) as [|j rest] eqn:Hj; [rewrite Hj; exact IH|].
      destruct j as [p x|]; simpl.
      * destruct K3 as [Hnil | (p' & Hp' & Hg)]; [discriminate|].
        simpl in Hp'. injection Hp' as <- _. rewrite Hg, Nat.eqb_refl.
        match goal with |- context [drive ?w'] =>
          destruct (drive_values w') as [Hd Hv];
          destruct (drive_log w') as [Hl _] end.
        rewrite Hl, Hd, Hv. simpl. rewrite IH. simpl.
        rewrite <- app_assoc. reflexivity.
      * simpl in IH. destruct (generator w); simpl; exact IH.
Qed.

Lemma resolved_promises_app (out out' : list Effect) :
  resolved_promises (out ++ out') = resolved_promises out ++ resolved_promises out'.
Proof. unfold resolved_promises. apply omap_app. Qed.

Lemma resolved_once_ext (w w' : World) :
  log w' = log w ->
  promises w' = promises w ->
  resolveRouteChange (router w') = resolveRouteChange (router w) \/
  resolveRouteChange (router w') = None ->
  resolved_once w -> resolved_once w'.
Proof.
  intros Hl Hp Hs [Hnd Hall]. unfold resolved_once. rewrite Hl, Hp.
  split; [exact Hnd|]. intros p Hin. destruct (Hall p Hin) as [Hlt Hne].
  split; [exact Hlt|]. destruct Hs as [-> | ->]; [exact Hne | discriminate].
Qed.

Lemma drive_resolved_once (w : World) : resolved_once w -> resolved_once (drive w).
Proof.
  intros Hw.
  destruct (drive_cases w)
    as [-> | [(_ & _ & ->) | [(_ & ->) | [(_ & _ & ->) | (_ & _ & ->)]]]].
  - exact Hw.
  - destruct Hw as [Hnd Hall]. rewrite loop_body_fields. split; [exact Hnd|]. simpl.
    intros p Hin. destruct (Hall p Hin) as [Hlt _]. split; [lia|].
    intros [= Heq]. lia.
  - apply (resolved_once_ext w); auto.
  - apply (resolved_once_ext w); auto.
  - rewrite finally_block_fields. apply (resolved_once_ext w); auto.
Qed.

Lemma step_resolved_once `{Platform} (c : Copy) (w : World) (a : Action) :
  coherent w -> resolved_once w -> resolved_once (step c w a).
Proof.
  intros (_ & Hslot & _) Hw. destruct a as [route h|event| |q|].
  - rewrite step_add. apply (resolved_once_ext w); try reflexivity; [|exact Hw].
    left. apply add_quiet.
  - destruct (step_navigate c w event)
      as [-> | [(u & mr & _ & _ & ->) | (u & _ & _ & ->)]]; [exact Hw | |];
      destruct Hw as [Hnd Hall]; unfold resolved_once; simpl;
      rewrite resolved_promises_app; simpl; rewrite app_nil_r; split; assumption.
  - destruct (intercepted w) as [|d rest] eqn:Hi.
    + rewrite (step_invoke_nothing c w Hi). exact Hw.
    + rewrite (step_invoke c w d rest Hi). destruct Hw as [Hnd Hall].
      unfold resolved_once. simpl. rewrite resolved_promises_app.
      destruct (resolveRouteChange (router w)) as [[p]|] eqn:Hs; simpl.
      * split.
        -- apply NoDup_app. split; [exact Hnd|]. split; [|apply NoDup_singleton].
           intros q Hq Hin. apply list_elem_of_singleton in Hin. subst q.
           destruct (Hall p Hq) as [_ Hne]. congruence.
        -- intros q Hin. apply elem_of_app in Hin. destruct Hin as [Hin|Hin].
           ++ split; [apply (Hall q Hin) | discriminate].
           ++ apply list_elem_of_singleton in Hin. subst q.
              split; [apply Hslot; reflexivity | discriminate].
      * rewrite app_nil_r. split; [exact Hnd|].
        intros q Hin. split; [apply (Hall q Hin) | discriminate].
  - simpl. unfold iterator_request. apply drive_resolved_once.
    apply (resolved_once_ext w); auto.
  - simpl. unfold run_job. destruct (jobs w) as [|j rest]; [exact Hw|].
    destruct j as [p x|]; simpl.
    + destruct (generator w); try (apply (resolved_once_ext w); auto; fail).
      destruct (Nat.eqb p p0); [|apply (resolved_once_ext w); auto].
      apply drive_resolved_once. apply (resolved_once_ext w); auto.
    + destruct (generator w); apply (resolved_once_ext w); auto.
Qed.

(** X12.  No resolver is called twice: the promises resolved in the course
    of a run are pairwise distinct, so a pull is answered by one match at
    most. *)
Theorem no_resolver_called_twice `{Platform} (c : Copy) (acts : list Action) :
  NoDup (resolved_promises (log (run c acts new_world))).
Proof.
  enough (Hr : resolved_once (run c acts new_world)) by exact (proj1 Hr).
  apply (run_ind c resolved_once).
  - split; [constructor|]. intros p Hin. apply elem_of_nil in Hin. destruct Hin.
  - clear acts. intros acts a IH. apply step_resolved_once; [|exact IH].
    apply run_coherent, coherent_new_world.
Qed.

(** ** A navigation from end to end *)

Lemma getRoute_same_table (u : URL) (r r' : Router) :
  same_table r r' ->
  completion (getRoute u r') = completion (getRoute u r).
Proof.
  intros [Hs Hd]. unfold getRoute. unfold_m. rewrite Hs, Hd.
  destruct (staticRoutes r !! pathname u); reflexivity.
Qed.

Lemma step_navigate_found `{Platform} (c : Copy) (w : World) (event : NavigateEvent)
    (u : URL) (mr : MatchedRoute) :
  eligible c event u ->
  completion (getRoute u (router w)) = Normal (Some mr) ->
  step c w (Navigate event) =
    absorb w (Intercept event {| d_route := route_of u mr; d_handler := mr_handler mr |}).
Proof.
  intros He Hg.
  change (step c w (Navigate event)) with (call (navigate_listener c event) w).
  rewrite (call_run _ w (Normal tt) (router w)
             [Intercept event {| d_route := route_of u mr; d_handler := mr_handler mr |}]).
  - rewrite with_router_same. reflexivity.
  - destruct He as (Hc & Hh & Hd & Hu & Hhost).
    rewrite (navigate_listener_eligible c event (router w) u Hc Hh Hd Hu Hhost).
    apply match_found, Hg.
Qed.

Lemma step_navigate_not_found `{Platform} (c : Copy) (w : World) (event : NavigateEvent)
    (u : URL) :
  eligible c event u ->
  completion (getRoute u (router w)) = Normal None ->
  step c w (Navigate event) =
    absorb w (DispatchEvent (RouterEvent_make c "404" (DetailURL u))).
Proof.
  intros He Hg.
  change (step c w (Navigate event)) with (call (navigate_listener c event) w).
  rewrite (call_run _ w (Normal tt) (router w)
             [DispatchEvent (RouterEvent_make c "404" (DetailURL u))]).
  - rewrite with_router_same. reflexivity.
  - destruct He as (Hc & Hh & Hd & Hu & Hhost).
    rewrite (navigate_listener_eligible c event (router w) u Hc Hh Hd Hu Hhost).
    apply match_not_found, Hg.
Qed.

(** X13.  From the navigate event to the handler.  When the host holds no
    earlier claim, an eligible navigation to a URL that has a route, followed
    by the host's call of the closure, adds to the log the claim, the
    ['change'] event, the call of the stored resolver if there is one, and
    one call of the route's handler, all with the same record; the slot is
    then empty and the tables are as before.  To a URL that has no route it
    adds one ['404'] event, and the host has nothing to call. *)
Theorem navigation_end_to_end `{Platform} (c : Copy) (w : World) (event : NavigateEvent)
    (u : URL) :
  intercepted w = [] ->
  eligible c event u ->
  (forall mr,
     completion (getRoute u (router w)) = Normal (Some mr) ->
     log (run c [Navigate event; InvokeIntercepted] w) =
       log w ++
         [Intercept event {| d_route := route_of u mr; d_handler := mr_handler mr |};
          DispatchEvent (RouterEvent_make c "change" (DetailRoute (route_of u mr)))]
         ++ resolver_call (resolveRouteChange (router w)) (route_of u mr)
         ++ [CallHandler (mr_handler mr) (route_of u mr)] /\
     intercepted (run c [Navigate event; InvokeIntercepted] w) = [] /\
     resolveRouteChange (router (run c [Navigate event; InvokeIntercepted] w)) = None /\
     same_table (router w) (router (run c [Navigate event; InvokeIntercepted] w))) /\
  (completion (getRoute u (router w)) = Normal None ->
   log (run c [Navigate event; InvokeIntercepted] w) =
     log w ++ [DispatchEvent (RouterEvent_make c "404" (DetailURL u))] /\
   intercepted (run c [Navigate event; InvokeIntercepted] w) = [] /\
   router (run c [Navigate event; InvokeIntercepted] w) = router w).
Proof.
  intros Hi He.
  change (run c [Navigate event; InvokeIntercepted] w)
    with (step c (step c w (Navigate event)) InvokeIntercepted).
  split.
  - intros mr Hg. rewrite (step_navigate_found c w event u mr He Hg).
    rewrite (step_invoke c _ {| d_route := route_of u mr; d_handler := mr_handler mr |} []);
      [|simpl; rewrite Hi; reflexivity].
    simpl. rewrite <- app_assoc. repeat split; reflexivity.
  - intros Hg. rewrite (step_navigate_not_found c w event u He Hg).
    rewrite step_invoke_nothing; [|simpl; exact Hi].
    simpl. repeat split; [exact Hi].
Qed.

Lemma navigation_end_to_end_witness :
  handlers_called
    (log (run Copy1 [Navigate (Examples.navigation "https://site/posts/42");
                     InvokeIntercepted]
            (run Copy1 [Add "/" (Fn 1); Add "/posts/:id" (Fn 2)] new_world))) = [Fn 2].
Proof.
  assert (He : eligible Copy1 (Examples.navigation "https://site/posts/42")
                 (Examples.url_of "/posts/42")).
  { unfold eligible. repeat split; reflexivity. }
  assert (Hi : intercepted (run Copy1 [Add "/" (Fn 1); Add "/posts/:id" (Fn 2)]
                              new_world) = [])
    by (vm_compute; reflexivity).
  destruct (navigation_end_to_end Copy1
              (run Copy1 [Add "/" (Fn 1); Add "/posts/:id" (Fn 2)] new_world)
              (Examples.navigation "https://site/posts/42")
              (Examples.url_of "/posts/42") Hi He) as [Hfound _].
  destruct (completion (getRoute (Examples.url_of "/posts/42")
              (router (run Copy1 [Add "/" (Fn 1); Add "/posts/:id" (Fn 2)] new_world))))
    as [[mr|]|e] eqn:Hg.
  - destruct (Hfound mr eq_refl) as [-> _]. vm_compute in Hg.
    injection Hg as <-. vm_compute. reflexivity.
  - vm_compute in Hg. discriminate.
  - vm_compute in Hg. discriminate.
Defined.

(** ** Pulls and matches *)

(** X14.  A pull answered by a match.  From a world in which the iterator
    is idle (not started, or suspended at a [yield]) and neither the host
    nor the microtask queue holds anything: after [next ()], an eligible
    navigation to a URL that has a route, the host's call of the closure and
    one microtask, the consumer has received [{ value: route, done: false }]
    for that route and nothing else, the resolver called is the one this
    pull stored, the slot is empty and the generator waits at its [yield]. *)
Theorem pull_is_answered_by_match `{Platform} (c : Copy) (acts : list Action)
    (event : NavigateEvent) (u : URL) (mr : MatchedRoute) :
  generator (run c acts new_world) = SuspendedStart \/
  generator (run c acts new_world) = SuspendedYield ->
  jobs (run c acts new_world) = [] ->
  intercepted (run c acts new_world) = [] ->
  eligible c event u ->
  completion (getRoute u (router (run c acts new_world))) = Normal (Some mr) ->
  delivered (run c [Iterate NextRequest; Navigate event; InvokeIntercepted; Microtask]
               (run c acts new_world)) =
    delivered (run c acts new_world) ++ [{| value := route_of u mr; done := false |}] /\
  resolver_calls
    (log (run c [Iterate NextRequest; Navigate event; InvokeIntercepted; Microtask]
            (run c acts new_world))) =
    resolver_calls (log (run c acts new_world)) ++
      [(ResolveOf (promises (run c acts new_world)),
        {| value := route_of u mr; done := false |})] /\
  resolveRouteChange
    (router (run c [Iterate NextRequest; Navigate event; InvokeIntercepted; Microtask]
               (run c acts new_world))) = None /\
  generator (run c [Iterate NextRequest; Navigate event; InvokeIntercepted; Microtask]
               (run c acts new_world)) = SuspendedYield.
Proof.
  intros Hgen Hjobs Hi He Hg.
  assert (Hq : requests (run c acts new_world) = []).
  { pose proof (run_settled c acts new_world eq_refl) as Hset.
    unfold settled in Hset. destruct Hgen as [Hgen|Hgen]; rewrite Hgen in Hset; exact Hset. }
  set (W := run c acts new_world) in *.
  change (run c [Iterate NextRequest; Navigate event; InvokeIntercepted; Microtask] W)
    with (step c (step c (step c (step c W (Iterate NextRequest)) (Navigate event))
                    InvokeIntercepted) Microtask).
  assert (H1 : step c W (Iterate NextRequest) =
               loop_body (with_generator (generator W) [NextRequest] W)).
  { simpl. unfold iterator_request, drive. rewrite Hq. simpl.
    destruct Hgen as [-> | ->]; reflexivity. }
  rewrite H1, loop_body_fields.
  match goal with |- context [step c (step c ?w1 (Navigate event)) _] =>
    rewrite (step_navigate_found c w1 event u mr He)
  end.
  2:{ cbn [router]. rewrite <- Hg. apply getRoute_same_table. split; reflexivity. }
  match goal with |- context [step c ?w2 InvokeIntercepted] =>
    rewrite (step_invoke c w2 {| d_route := route_of u mr; d_handler := mr_handler mr |} [])
  end.
  2:{ simpl. rewrite Hi. reflexivity. }
  simpl. rewrite Hjobs. unfold run_job. simpl. rewrite Nat.eqb_refl.
  unfold drive. simpl.
  rewrite !resolver_calls_app. simpl. rewrite app_nil_r.
  repeat split; reflexivity.
Qed.

Lemma pull_is_answered_by_match_witness :
  delivered (run Copy1 [Iterate NextRequest;
                        Navigate (Examples.navigation "https://site/about");
                        InvokeIntercepted; Microtask]
               (run Copy1 [Add "/about" (Fn 1)] new_world)) =
    [{| value := {| params := None; url := Examples.url_of "/about" |}; done := false |}].
Proof.
  assert (He : eligible Copy1 (Examples.navigation "https://site/about")
                 (Examples.url_of "/about")).
  { unfold eligible. repeat split; reflexivity. }
  assert (Hg : completion (getRoute (Examples.url_of "/about")
                 (router (run Copy1 [Add "/about" (Fn 1)] new_world))) =
               Normal (Some {| mr_match := None; mr_handler := Fn 1 |}))
    by (vm_compute; reflexivity).
  assert (Hj : jobs (run Copy1 [Add "/about" (Fn 1)] new_world) = [])
    by (vm_compute; reflexivity).
  assert (Hi : intercepted (run Copy1 [Add "/about" (Fn 1)] new_world) = [])
    by (vm_compute; reflexivity).
  assert (Hs : generator (run Copy1 [Add "/about" (Fn 1)] new_world) = SuspendedStart)
    by (vm_compute; reflexivity).
  destruct (pull_is_answered_by_match Copy1 [Add "/about" (Fn 1)]
              (Examples.navigation "https://site/about") (Examples.url_of "/about")
              {| mr_match := None; mr_handler := Fn 1 |}
              (or_introl Hs) Hj Hi He Hg) as [-> _].
  vm_compute. reflexivity.
Defined.

Lemma drive_pending (w : World) :
  pending_promises (jobs (drive w)) = pending_promises (jobs w).
Proof.
  destruct (drive_cases w)
    as [-> | [(_ & _ & ->) | [(_ & ->) | [(_ & _ & ->) | (_ & _ & ->)]]]];
    try reflexivity.
  simpl. rewrite pending_promises_app. simpl. apply app_nil_r.
Qed.

(** With no promise reaction in the queue, the consumer's own steps bring it
    nothing. *)
Lemma consumer_step_brings_nothing `{Platform} (c : Copy) (w : World) (a : Action) :
  pending_promises (jobs w) = [] ->
  consumer_step a = true ->
  delivered (step c w a) = delivered w /\
  pending_promises (jobs (step c w a)) = [] /\
  log (step c w a) = log w.
Proof.
  intros Hj Ha. destruct a as [route h|event| |q|]; try discriminate.
  - simpl. unfold iterator_request.
    match goal with |- context [drive ?w'] =>
      destruct (drive_values w') as [Hd _];
      pose proof (drive_pending w') as Hp;
      destruct (drive_log w') as [Hl _] end.
    rewrite Hd, Hp, Hl. repeat split; [exact Hj].
  - simpl. unfold run_job. destruct (jobs w) as [|[p x|] rest] eqn:Hjobs.
    + rewrite Hjobs. repeat split; reflexivity.
    + discriminate.
    + simpl in Hj. simpl.
      destruct (generator w); simpl; (split; [reflexivity | split; [exact Hj | reflexivity]]).
Qed.

(** X15.  Route changes are not kept for the iterator.  When the host runs a
    claimed closure while no pull is pending, no resolver is called, and
    however often the consumer then pulls, without another match it
    receives nothing. *)
Theorem unobserved_match_is_not_kept `{Platform} (c : Copy) (acts later : list Action) :
  pull_pending (run c acts new_world) = false ->
  Forall (fun a => consumer_step a = true) later ->
  resolver_calls (log (run c later (step c (run c acts new_world) InvokeIntercepted))) =
    resolver_calls (log (run c acts new_world)) /\
  delivered (run c later (step c (run c acts new_world) InvokeIntercepted)) =
    delivered (run c acts new_world).
Proof.
  intros Hp Hlater.
  destruct (tracks_idle _ (run_tracks c acts)) as [Hs Hj].
  { intros p Hg. unfold pull_pending in Hp. rewrite Hg in Hp. discriminate. }
  set (W := run c acts new_world) in *.
  assert (H0 : resolver_calls (log (step c W InvokeIntercepted)) = resolver_calls (log W) /\
               delivered (step c W InvokeIntercepted) = delivered W /\
               pending_promises (jobs (step c W InvokeIntercepted)) = []).
  { destruct (intercepted W) as [|d rest] eqn:Hi.
    - rewrite (step_invoke_nothing c W Hi). repeat split; [exact Hj].
    - rewrite (step_invoke c W d rest Hi). simpl. rewrite Hs. simpl.
      rewrite resolver_calls_app, app_nil_r. simpl. rewrite app_nil_r.
      repeat split; [exact Hj]. }
  destruct H0 as (Hr0 & Hd0 & Hj0). rewrite <- Hr0, <- Hd0.
  revert Hj0. generalize (step c W InvokeIntercepted). clear Hr0 Hd0.
  induction Hlater as [|a later Ha _ IH]; intros w Hw; simpl; [split; reflexivity|].
  destruct (consumer_step_brings_nothing c w a Hw Ha) as (Hd & Hj' & Hl).
  destruct (IH _ Hj') as [-> ->]. rewrite Hd, Hl. split; reflexivity.
Qed.

Lemma unobserved_match_is_not_kept_witness :
  delivered (run Copy1 [Iterate NextRequest; Microtask]
               (step Copy1
                  (run Copy1 [Add "/" (Fn 1); Navigate (Examples.navigation "https://site/")]
                     new_world)
                  InvokeIntercepted)) = [].
Proof.
  assert (Hlater : Forall (fun a => consumer_step a = true)
                     [Iterate NextRequest; Microtask]) by (repeat constructor).
  assert (Hp : pull_pending
                 (run Copy1 [Add "/" (Fn 1);
                             Navigate (Examples.navigation "https://site/")]
                    new_world) = false) by (vm_compute; reflexivity).
  destruct (unobserved_match_is_not_kept Copy1
              [Add "/" (Fn 1); Navigate (Examples.navigation "https://site/")]
              [Iterate NextRequest; Microtask] Hp Hlater) as [_ ->].
  vm_compute. reflexivity.
Defined.

(** ** After the consumer has stopped *)

Lemma fold_absorb_delivered (out : list Effect) (w : World) :
  delivered (fold_left absorb out w) = delivered w.
Proof.
  revert w. induction out as [|e out IH]; intros w; simpl; [reflexivity|].
  rewrite IH. destruct e as [ev|[p] x|h r|ev' d]; reflexivity.
Qed.

Lemma call_delivered {A} (m : M A) (w : World) : delivered (call m w) = delivered w.
Proof.
  unfold call. destruct (m (router w)) as [[k r] out].
  apply (fold_absorb_delivered out (with_router r w)).
Qed.

Lemma stopped_delivers_nothing `{Platform} (c : Copy) (w : World) (a : Action) :
  stopped w -> delivered (step c w a) = delivered w.
Proof.
  intros [_ Hgen]. destruct a as [route h|event| |q|]; simpl.
  - apply call_delivered.
  - apply call_delivered.
  - unfold invoke_intercepted. destruct (intercepted w); [reflexivity|].
    rewrite call_delivered. reflexivity.
  - unfold iterator_request.
    match goal with |- context [drive ?w'] => exact (proj1 (drive_values w')) end.
  - unfold run_job. destruct (jobs w) as [|[p x|] rest]; [reflexivity| |]; simpl;
      destruct Hgen as [-> | ->]; reflexivity.
Qed.

(** X16.  Once the consumer has stopped the iteration, with no pull
    pending, it receives nothing more, whatever navigations, matches and
    further requests follow. *)
Theorem nothing_delivered_after_stop `{Platform} (c : Copy) (acts later : list Action)
    (q : Request) :
  abandons q = true ->
  pull_pending (run c acts new_world) = false ->
  delivered (run c later (step c (run c acts new_world) (Iterate q))) =
    delivered (run c acts new_world).
Proof.
  intros Hq Hp.
  assert (Hstop : stopped (step c (run c acts new_world) (Iterate q))).
  { simpl. apply abandon_stops; try assumption.
    - apply run_coherent, coherent_new_world.
    - apply run_settled. reflexivity. }
  assert (H0 : delivered (step c (run c acts new_world) (Iterate q)) =
               delivered (run c acts new_world)).
  { simpl. unfold iterator_request.
    match goal with |- context [drive ?w'] => exact (proj1 (drive_values w')) end. }
  rewrite <- H0. revert Hstop. generalize (step c (run c acts new_world) (Iterate q)).
  clear H0. induction later as [|a later IH]; intros w Hw; simpl; [reflexivity|].
  rewrite (IH _ (proj1 (stopped_step c w a Hw))).
  apply stopped_delivers_nothing, Hw.
Qed.

Lemma nothing_delivered_after_stop_witness :
  delivered
    (run Copy1 [Navigate (Examples.navigation "https://site/"); InvokeIntercepted;
                Iterate NextRequest; Microtask; Microtask]
       (step Copy1 (run Copy1 [Add "/" (Fn 1)] new_world) (Iterate ReturnRequest))) = [].
Proof.
  assert (Hp : pull_pending (run Copy1 [Add "/" (Fn 1)] new_world) = false)
    by (vm_compute; reflexivity).
  rewrite (nothing_delivered_after_stop Copy1 [Add "/" (Fn 1)]
             [Navigate (Examples.navigation "https://site/"); InvokeIntercepted;
              Iterate NextRequest; Microtask; Microtask] ReturnRequest eq_refl Hp).
  vm_compute. reflexivity.
Defined.

(** ** The two copies side by side *)

Lemma eligible_copies `{Platform} (event : NavigateEvent) (u : URL) :
  truthy (downloadRequest event) = false ->
  eligible Copy1 event u <-> eligible Copy2 event u.
Proof.
  intros Hd. unfold eligible. rewrite copy2_download_undefined.
  change (prop event (download_property Copy1)) with (downloadRequest event).
  rewrite Hd. simpl. tauto.
Qed.

Lemma same_but_options_absorb (w1 w2 : World) (e1 e2 : Effect) :
  same_but_options w1 w2 ->
  without_options e1 = without_options e2 ->
  reactions_of [e1] = reactions_of [e2] ->
  claimed [e1] = claimed [e2] ->
  same_but_options (absorb w1 e1) (absorb w2 e2).
Proof.
  intros (Hr & Hg & Hq & Hp & Hj & Hi & Hd & Hl) He Hre Hcl.
  assert (Hlog : map without_options (log w1 ++ [e1]) =
                 map without_options (log w2 ++ [e2])).
  { rewrite !map_app, Hl. simpl. rewrite He. reflexivity. }
  destruct e1 as [ev1|[p1] x1|h1 r1|ev1 d1]; destruct e2 as [ev2|[p2] x2|h2 r2|ev2 d2];
    simpl in Hre, Hcl; try discriminate;
    unfold same_but_options; simpl;
    repeat split; try assumption; try congruence.
Qed.

Lemma same_but_options_iterate (w1 w2 : World) (q : Request) :
  same_but_options w1 w2 ->
  same_but_options (iterator_request q w1) (iterator_request q w2).
Proof.
  intros (Hr & Hg & Hq & Hp & Hj & Hi & Hd & Hl).
  destruct w1 as [r1 g1 q1 n1 j1 i1 d1 l1], w2 as [r2 g2 q2 n2 j2 i2 d2 l2].
  simpl in *. subst r2 g2 q2 n2 j2 i2 d2.
  unfold iterator_request, drive. simpl.
  destruct (q1 ++ [q]) as [|[] rest]; destruct g1; simpl;
    unfold same_but_options; simpl; repeat split; assumption.
Qed.

Lemma same_but_options_microtask (w1 w2 : World) :
  same_but_options w1 w2 ->
  same_but_options (run_job w1) (run_job w2).
Proof.
  intros (Hr & Hg & Hq & Hp & Hj & Hi & Hd & Hl).
  destruct w1 as [r1 g1 q1 n1 j1 i1 d1 l1], w2 as [r2 g2 q2 n2 j2 i2 d2 l2].
  simpl in *. subst r2 g2 q2 n2 j2 i2 d2.
  unfold run_job. simpl. destruct j1 as [|[p x|] rest]; simpl.
  - unfold same_but_options; simpl; repeat split; assumption.
  - destruct g1; simpl; try (unfold same_but_options; simpl; repeat split; assumption).
    destruct (Nat.eqb p p0); [|unfold same_but_options; simpl; repeat split; assumption].
    unfold drive. simpl.
    destruct (tail q1) as [|[] rest']; simpl;
      unfold same_but_options; simpl; repeat split; assumption.
  - destruct g1; simpl; unfold same_but_options; simpl; repeat split; assumption.
Qed.

Lemma same_but_options_step `{Platform} (w1 w2 : World) (a : Action) :
  not_a_download a = true ->
  same_but_options w1 w2 ->
  same_but_options (step Copy1 w1 a) (step Copy2 w2 a).
Proof.
  intros Ha Hw. pose proof Hw as (Hr & Hg & Hq & Hp & Hj & Hi & Hd & Hl).
  destruct a as [route h|event| |q|].
  - rewrite !step_add, Hr. unfold same_but_options. simpl. repeat split; assumption.
  - simpl in Ha. apply negb_true_iff in Ha.
    destruct (navigate_listener_cases Copy1 event (router w1))
      as [[k Hl1] | [(u & mr & He & Hfound & _) | (u & He & Hnone & _)]].
    + change (step Copy1 w1 (Navigate event))
        with (call (navigate_listener Copy1 event) w1).
      rewrite (call_run _ _ _ _ _ Hl1), with_router_same. simpl fold_left.
      destruct (navigate_listener_cases Copy2 event (router w2))
        as [[k2 Hl2] | [(u & mr & He & _ & _) | (u & He & _ & _)]].
      * change (step Copy2 w2 (Navigate event))
          with (call (navigate_listener Copy2 event) w2).
        rewrite (call_run _ _ _ _ _ Hl2), with_router_same. exact Hw.
      * exfalso. apply (eligible_copies event u Ha) in He.
        destruct He as (Hc & Hh & Hdl & Hu & Hhost).
        rewrite (navigate_listener_eligible Copy1 event (router w1) u Hc Hh Hdl Hu Hhost)
          in Hl1.
        apply (match_effects_nonempty Copy1 u event (router w1)). rewrite Hl1. reflexivity.
      * exfalso. apply (eligible_copies event u Ha) in He.
        destruct He as (Hc & Hh & Hdl & Hu & Hhost).
        rewrite (navigate_listener_eligible Copy1 event (router w1) u Hc Hh Hdl Hu Hhost)
          in Hl1.
        apply (match_effects_nonempty Copy1 u event (router w1)). rewrite Hl1. reflexivity.
    + rewrite (step_navigate_found Copy1 w1 event u mr He Hfound).
      rewrite (step_navigate_found Copy2 w2 event u mr);
        [|apply (eligible_copies event u Ha), He | rewrite <- Hr; exact Hfound].
      apply same_but_options_absorb; [exact Hw | reflexivity..].
    + rewrite (step_navigate_not_found Copy1 w1 event u He Hnone).
      rewrite (step_navigate_not_found Copy2 w2 event u);
        [|apply (eligible_copies event u Ha), He | rewrite <- Hr; exact Hnone].
      apply same_but_options_absorb; [exact Hw | reflexivity..].
  - destruct (intercepted w1) as [|d rest] eqn:Hi1.
    + rewrite (step_invoke_nothing Copy1 w1 Hi1).
      rewrite (step_invoke_nothing Copy2 w2); [exact Hw | congruence].
    + rewrite (step_invoke Copy1 w1 d rest Hi1).
      rewrite (step_invoke Copy2 w2 d rest); [|congruence].
      unfold same_but_options. simpl. rewrite Hr, Hg, Hq, Hp, Hj, Hd.
      repeat split. rewrite !map_app, Hl. reflexivity.
  - simpl. apply same_but_options_iterate, Hw.
  - simpl. apply same_but_options_microtask, Hw.
Qed.

(** X17.  Downloads and [options] apart, the two copies are one program: run
    on the same registrations, navigations, host callbacks and iterator
    requests, none of the navigations having a truthy [downloadRequest],
    they reach worlds that differ at most in the [options] of the events
    dispatched: same tables and slot, same claims, same resolver and handler
    calls in the same order, same values delivered. *)
Theorem copies_agree_but_downloads `{Platform} (acts : list Action) :
  Forall (fun a => not_a_download a = true) acts ->
  same_but_options (run Copy1 acts new_world) (run Copy2 acts new_world).
Proof.
  intros Hacts.
  assert (Hnew : same_but_options new_world new_world)
    by (unfold same_but_options; repeat split; reflexivity).
  revert Hnew. generalize new_world at 1 3. generalize new_world.
  induction Hacts as [|a acts Ha _ IH]; intros w2 w1 Hw; simpl; [exact Hw|].
  apply IH, same_but_options_step; assumption.
Qed.

Lemma copies_agree_but_downloads_witness :
  handlers_called
    (log (run Copy1 [Add "/" (Fn 1); Navigate (Examples.navigation "https://site/");
                     InvokeIntercepted] new_world)) =
  handlers_called
    (log (run Copy2 [Add "/" (Fn 1); Navigate (Examples.navigation "https://site/");
                     InvokeIntercepted] new_world)) /\
  delivered (run Copy1 [Add "/" (Fn 1); Navigate (Examples.navigation "https://site/");
                        InvokeIntercepted] new_world) =
  delivered (run Copy2 [Add "/" (Fn 1); Navigate (Examples.navigation "https://site/");
                        InvokeIntercepted] new_world).
Proof.
  assert (Hacts : Forall (fun a => not_a_download a = true)
                    [Add "/" (Fn 1); Navigate (Examples.navigation "https://site/");
                     InvokeIntercepted]) by (repeat constructor).
  destruct (copies_agree_but_downloads
              [Add "/" (Fn 1); Navigate (Examples.navigation "https://site/");
               InvokeIntercepted] Hacts)
    as (_ & _ & _ & _ & _ & _ & Hd & _).
  split; [vm_compute; reflexivity | exact Hd].
Defined.

(** ** Stopping during a pull *)

(** Outside a pull there is nothing for the [finally] block to clear. *)
Lemma slot_empty_unless_pull_pending `{Platform} (c : Copy) (acts : list Action) :
  pull_pending (run c acts new_world) = false ->
  resolveRouteChange (router (run c acts new_world)) = None.
Proof.
  intros Hp. apply (tracks_idle _ (run_tracks c acts)).
  intros p Hg. unfold pull_pending in Hp. rewrite Hg in Hp. discriminate.
Qed.

(** A request that arrives during a pull runs nothing of the generator. *)
Lemma request_during_pull_waits (w : World) (q : Request) (p : nat) :
  generator w = AwaitingPromise p ->
  iterator_request q w = with_generator (AwaitingPromise p) (requests w ++ [q]) w.
Proof.
  intros Hg. unfold iterator_request, drive. simpl. rewrite Hg.
  destruct (requests w ++ [q]); reflexivity.
Qed.

(** C8, on the code.  When the consumer stops ([return ()] or [throw ()])
    while its pull is pending, the generator is parked on the promise of that
    pull and the request only joins its queue: the [finally] block does not
    run, the slot still holds the resolver of the abandoned pull, and the
    next successful match calls that resolver with its route. *)
Theorem stop_during_pull_keeps_resolver `{Platform} (c : Copy) (w : World) (q : Request)
    (p : nat) (event : NavigateEvent) (u : URL) (mr : MatchedRoute) :
  abandons q = true ->
  generator w = AwaitingPromise p ->
  resolveRouteChange (router w) = Some (ResolveOf p) ->
  intercepted w = [] ->
  eligible c event u ->
  completion (getRoute u (router w)) = Normal (Some mr) ->
  router (step c w (Iterate q)) = router w /\
  generator (step c w (Iterate q)) = AwaitingPromise p /\
  resolver_calls (log (run c [Iterate q; Navigate event; InvokeIntercepted] w)) =
    resolver_calls (log w) ++
      [(ResolveOf p, {| value := route_of u mr; done := false |})].
Proof.
  intros _ Hg Hs Hi He Hr.
  change (run c [Iterate q; Navigate event; InvokeIntercepted] w)
    with (step c (step c (step c w (Iterate q)) (Navigate event)) InvokeIntercepted).
  change (step c w (Iterate q)) with (iterator_request q w).
  rewrite (request_during_pull_waits w q p Hg).
  split; [reflexivity|]. split; [reflexivity|].
  match goal with |- context [step c ?w1 (Navigate event)] =>
    rewrite (step_navigate_found c w1 event u mr He Hr)
  end.
  match goal with |- context [step c ?w2 InvokeIntercepted] =>
    rewrite (step_invoke c w2 {| d_route := route_of u mr; d_handler := mr_handler mr |} [])
  end.
  2:{ simpl. rewrite Hi. reflexivity. }
  simpl. rewrite Hs. rewrite !resolver_calls_app. simpl. rewrite app_nil_r.
  reflexivity.
Qed.

Lemma stop_during_pull_keeps_resolver_witness :
  abandons ReturnRequest = true /\
  generator (run Copy1 [Add "/" (Fn 1); Iterate NextRequest] new_world) =
    AwaitingPromise 0 /\
  resolveRouteChange
    (router (step Copy1 (run Copy1 [Add "/" (Fn 1); Iterate NextRequest] new_world)
               (Iterate ReturnRequest))) = Some (ResolveOf 0) /\
  resolver_calls
    (log (run Copy1 [Iterate ReturnRequest;
                     Navigate (Examples.navigation "https://site/");
                     InvokeIntercepted]
            (run Copy1 [Add "/" (Fn 1); Iterate NextRequest] new_world))) =
    [(ResolveOf 0,
      {| value := {| params := None; url := Examples.url_of "/" |}; done := false |})].
Proof.
  assert (Hg : generator (run Copy1 [Add "/" (Fn 1); Iterate NextRequest] new_world) =
               AwaitingPromise 0) by (vm_compute; reflexivity).
  assert (Hs : resolveRouteChange
                 (router (run Copy1 [Add "/" (Fn 1); Iterate NextRequest] new_world)) =
               Some (ResolveOf 0)) by (vm_compute; reflexivity).
  assert (Hi : intercepted (run Copy1 [Add "/" (Fn 1); Iterate NextRequest] new_world) = [])
    by (vm_compute; reflexivity).
  assert (He : eligible Copy1 (Examples.navigation "https://site/") (Examples.url_of "/")).
  { unfold eligible. repeat split; reflexivity. }
  assert (Hr : completion (getRoute (Examples.url_of "/")
                 (router (run Copy1 [Add "/" (Fn 1); Iterate NextRequest] new_world))) =
               Normal (Some {| mr_match := None; mr_handler := Fn 1 |}))
    by (vm_compute; reflexivity).
  destruct (stop_during_pull_keeps_resolver Copy1
              (run Copy1 [Add "/" (Fn 1); Iterate NextRequest] new_world)
              ReturnRequest 0 (Examples.navigation "https://site/")
              (Examples.url_of "/") {| mr_match := None; mr_handler := Fn 1 |}
              eq_refl Hg Hs Hi He Hr) as (Hrouter & _ & Hcalls).
  split; [reflexivity|]. split; [exact Hg|]. split.
  - rewrite Hrouter. exact Hs.
  - rewrite Hcalls. vm_compute. reflexivity.
Defined.

(** The same run to its end: the stop takes effect only after the match has
    answered the abandoned pull; the value is delivered to it, and then the
    [finally] block runs and the generator completes. *)
Lemma stop_during_pull_timeline :
  generator (run Copy1 [Add "/" (Fn 1); Iterate NextRequest; Iterate ReturnRequest;
                        Navigate (Examples.navigation "https://site/");
                        InvokeIntercepted] new_world) = AwaitingPromise 0 /\
  delivered (run Copy1 [Add "/" (Fn 1); Iterate NextRequest; Iterate ReturnRequest;
                        Navigate (Examples.navigation "https://site/");
                        InvokeIntercepted; Microtask] new_world) =
    [{| value := {| params := None; url := Examples.url_of "/" |}; done := false |}] /\
  generator (run Copy1 [Add "/" (Fn 1); Iterate NextRequest; Iterate ReturnRequest;
                        Navigate (Examples.navigation "https://site/");
                        InvokeIntercepted; Microtask] new_world) = AwaitingReturn /\
  generator (run Copy1 [Add "/" (Fn 1); Iterate NextRequest; Iterate ReturnRequest;
                        Navigate (Examples.navigation "https://site/");
                        InvokeIntercepted; Microtask; Microtask] new_world) = Completed /\
  resolveRouteChange
    (router (run Copy1 [Add "/" (Fn 1); Iterate NextRequest; Iterate ReturnRequest;
                        Navigate (Examples.navigation "https://site/");
                        InvokeIntercepted; Microtask; Microtask] new_world)) = None.
Proof. repeat split; vm_compute; reflexivity. Qed.
